(** * filename-sanitizer: a shallow embedding of [filename-sanitizer.py]

    The script copies or moves a directory tree to a destination whose
    filesystem forbids some characters, replacing every forbidden character
    of a file name by an underscore.  This development embeds

    - the table [FILESYSTEMS] and the function [sanitize_filename];
    - the body of [main] after the prompts: the override of MOVE on a
      read-only source, the discovery pass, and the transfer pass,

    and states the properties of the specification over them. *)

From Stdlib Require Import NArith Ascii String List.
From stdpp Require Import gmap strings list fin_maps.

Local Open Scope N_scope.

(** ** Characters and strings

    A Python [str] is a sequence of Unicode code points; a character is a
    [str] of length one.  Code points are numbers in [N]. *)

Abbreviation pychar := N (only parsing).
Abbreviation pystr := (list N) (only parsing).

(** [str s] reads an ASCII literal as a Python string. *)
Definition str (s : string) : pystr :=
  map N_of_ascii (list_ascii_of_string s).

(** The placeholder, the character [_]. *)
Definition underscore : pychar := 95.

(** [range(a, b)] of Python, as the code points it enumerates. *)
Definition range (a b : N) : list N :=
  map N.of_nat (seq (N.to_nat a) (N.to_nat b - N.to_nat a)).

(** ** FILESYSTEMS (lines 19-46) *)

(** The characters of the literal tested by [not in] at lines 23, 28 and 33:
    [<] 60, [>] 62, [:] 58, the double quote 34, [/] 47, the backslash 92,
    [|] 124, [?] 63 and [*] 42. *)
Definition windows_reserved : pystr := [60; 62; 58; 34; 47; 92; 124; 63; 42].

(** [set(chr(i) for i in range(32, 127) if chr(i) not in RESERVED)] *)
Definition windows_allowed : gset pychar :=
  list_to_set (filter (λ c, c ∉ windows_reserved) (range 32 127)).

(** [set(chr(i) for i in range(1, 127) if chr(i) != SLASH)] *)
Definition ext4_allowed : gset pychar :=
  list_to_set (filter (λ c, c ≠ 47) (range 1 127)).

(** [set(chr(i) for i in range(1, 127) if chr(i) != COLON)] *)
Definition hfs_allowed : gset pychar :=
  list_to_set (filter (λ c, c ≠ 58) (range 1 127)).

Definition FILESYSTEMS : gmap string (gset pychar) :=
  <["FAT32"%string := windows_allowed]>
  (<["exFAT"%string := windows_allowed]>
  (<["NTFS"%string := windows_allowed]>
  (<["ext4"%string := ext4_allowed]>
  (<["HFS+"%string := hfs_allowed]> ∅)))).

(** ** sanitize_filename (lines 49-63) *)

(** The loop of lines 56-61: [acc] is [(new_name_chars, changed)]. *)
Definition sanitize_step (allowed_chars : gset pychar)
    (acc : pystr * bool) (ch : pychar) : pystr * bool :=
  if decide (ch ∈ allowed_chars)
  then (acc.1 ++ [ch], acc.2)
  else (acc.1 ++ [underscore], true).

Definition sanitize_loop (original : pystr) (allowed_chars : gset pychar)
    : pystr * bool :=
  fold_left (sanitize_step allowed_chars) original ([], false).

(** The flag [changed] as it stands when the loop ends.  The function does
    not return it. *)
Definition changed (original : pystr) (allowed_chars : gset pychar) : bool :=
  (sanitize_loop original allowed_chars).2.

(** [sanitized = EMPTY.join(new_name_chars); return sanitized] *)
Definition sanitize_filename (original : pystr) (allowed_chars : gset pychar)
    : pystr :=
  (sanitize_loop original allowed_chars).1.

(** ** Paths

    A [pathlib.Path] is the list of its components, the outermost first.
    [p / name] appends one component, [dest_root / rel_root] appends
    all the components of [rel_root]. *)

Abbreviation path := (list (list N)) (only parsing).

Definition path_join (p : path) (name : pystr) : path := p ++ [name].

(** [Path(p).relative_to(base)]: [p] without the prefix [base]; [None] is the
    [ValueError] it raises when [base] is not a prefix of [p]. *)
Fixpoint relative_to (p base : path) {struct base} : option path :=
  match base, p with
  | [], _ => Some p
  | b :: base', x :: p' => if decide (x = b) then relative_to p' base' else None
  | _ :: _, [] => None
  end.

(** ** The libraries

    Every exception below derives from [Exception], so a handler
    [except Exception] catches each of them. *)

Inductive exn :=
| FileNotFoundError
| FileExistsError
| NotADirectoryError
| PermissionError
| SameFileError
| KeyError
| ValueError
| MarkupError
| UnicodeEncodeError.

(** The generator returned by [os.walk]: it is finite, and it is lazy: the
    entry it yields next depends on the filesystem as it is when the loop
    asks for it, after the body ran on the previous entry. *)
Inductive walker (World : Type) : Type :=
| StopIteration
| Yield (root : path) (dirs files : list pystr) (next : World → walker World).
Arguments StopIteration {World}.
Arguments Yield {World} root dirs files next.

Inductive op := COPY | MOVE.

(** The messages of [console.print], one constructor for each format
    string, with the values it interpolates. *)
Inductive notice :=
| Title
| CreatedDestination (dest_root : path)
| FailedToCreate (dest_root : path) (e : exn)
| SwitchingToCopy (source_root : path)
| Summary (source_root : path) (source_fs : string)
          (dest_root : path) (dest_fs : string) (operation : op)
| Scanning
| NoFilesFound (source_root : path)
| Found (total_files total_bytes : N)
| Canceled
| Transferring
| Renaming (fname safe_name : pystr)
| FailedToCopy (src_path : path) (e : exn)
| FailedToMove (src_path : path) (e : exn)
| Done (transferred_files transferred_bytes : N).

(** The library calls of [main], over a type [World] of filesystems.
    [path_exists], [os_access_W_OK] and [stat_st_size] read the filesystem;
    [path_mkdir], [shutil_copy2] and [shutil_move] return the filesystem they
    leave.  A call that fails returns the exception it raises: for
    [path_exists], which is [Path.exists()], the right injection (pathlib
    lets a [PermissionError] through); for the calls that write, [None] is a
    normal return; for [stat_st_size], which is [Path.stat().st_size],
    [None] is an exception.  [path_mkdir] is
    [Path.mkdir(parents=True, exist_ok=True)].

    [console_print] is [Console.print] of rich, which reads its argument as
    markup: the paths, names and exception texts of a notice are
    interpolated as they are, and rich raises [MarkupError] when what
    results holds a closing tag that closes nothing, as with the path
    src[/x]; it raises [UnicodeEncodeError] for a name that the terminal
    cannot encode.  [console_print m] is the exception raised for the
    notice [m], [None] when the notice is printed. *)
Class OS (World : Type) := {
  path_exists : path → World → bool + exn;
  os_access_W_OK : path → World → bool;
  stat_st_size : path → World → option N;
  path_mkdir : path → World → World * option exn;
  shutil_copy2 : path → path → World → World * option exn;
  shutil_move : path → path → World → World * option exn;
  os_walk : path → World → walker World;
  console_print : notice → option exn;
}.

(** ** What a run does: console output and filesystem calls, in order *)

Inductive event :=
| Print (m : notice)
| ProgressAdvance (fsize transferred_files total_files : N)
| ProgressCompleted (total_bytes : N)
| CallStat (p : path) (r : option N)
| CallMkdir (p : path) (r : option exn)
| CallCopy2 (src dst : path) (r : option exn)
| CallMove (src dst : path) (r : option exn).

(** How [main] ends: it returns, it calls [sys.exit], or an exception
    leaves it (the handler at line 279 catches [KeyboardInterrupt] only). *)
Inductive outcome :=
| Returned
| SysExit (code : N)
| Uncaught (e : exn).

(** The answers to the prompts of lines 106-163 and 198-206, as the
    validators let them through: [operation] is COPY or MOVE, [proceed] tells
    whether the last answer is y. *)
Record answers := {
  source_root : path;
  source_fs : string;
  dest_root : path;
  dest_fs : string;
  operation : op;
  proceed : bool;
}.

(** The name of a profile as the summary shows it, for what rich makes of
    it: a key of the table holds no bracket and decides nothing, it is
    blanked; another name is left as it is. *)
Definition profile_text (fs : string) : string :=
  if decide (is_Some (FILESYSTEMS !! fs)) then EmptyString else fs.

(** What of a notice decides whether rich prints it: nothing in a notice
    whose format string interpolates no text, or numbers only, the terminal
    being taken to show the text of the format strings; in the summary, the
    two paths, and the names of the profiles when they are not keys of the
    table; in the others, the notice as it is. *)
Definition markup (m : notice) : option notice :=
  match m with
  | Title | Scanning | Found _ _ | Canceled | Transferring | Done _ _ => None
  | Summary source_root source_fs dest_root dest_fs operation =>
      Some (Summary source_root (profile_text source_fs)
                    dest_root (profile_text dest_fs) operation)
  | _ => Some m
  end.

Section Main.
Context {World : Type} `{OS World}.

(** The filesystem, the log of the run and the counters of [main]. *)
Record state := {
  world : World;
  log : list event;
  total_files : N;
  total_bytes : N;
  transferred_files : N;
  transferred_bytes : N;
}.

Definition initial (w : World) : state :=
  {| world := w; log := []; total_files := 0; total_bytes := 0;
     transferred_files := 0; transferred_bytes := 0 |}.

Definition emit (e : event) (s : state) : state :=
  {| world := world s; log := log s ++ [e];
     total_files := total_files s; total_bytes := total_bytes s;
     transferred_files := transferred_files s;
     transferred_bytes := transferred_bytes s |}.

(** [console.print]: the notice is logged when rich prints it; when rich
    raises, nothing is printed and the exception is the result. *)
Definition print (m : notice) (s : state) : option exn * state :=
  match markup m ≫= console_print with
  | Some e => (Some e, s)
  | None => (None, emit (Print m) s)
  end.

(** A statement after another: an exception of the first is the result. *)
Definition and_then (r : option exn * state)
    (k : state → option exn * state) : option exn * state :=
  match r with
  | (Some e, s) => (Some e, s)
  | (None, s) => k s
  end.

(** The same in the body of [main], where nothing catches the exception. *)
Definition raising (r : option exn * state)
    (k : state → outcome * state) : outcome * state :=
  match r with
  | (Some e, s) => (Uncaught e, s)
  | (None, s) => k s
  end.

Definition set_world (w : World) (s : state) : state :=
  {| world := w; log := log s;
     total_files := total_files s; total_bytes := total_bytes s;
     transferred_files := transferred_files s;
     transferred_bytes := transferred_bytes s |}.

Definition count_file (s : state) : state :=
  {| world := world s; log := log s;
     total_files := total_files s + 1; total_bytes := total_bytes s;
     transferred_files := transferred_files s;
     transferred_bytes := transferred_bytes s |}.

Definition count_bytes (n : N) (s : state) : state :=
  {| world := world s; log := log s;
     total_files := total_files s; total_bytes := total_bytes s + n;
     transferred_files := transferred_files s;
     transferred_bytes := transferred_bytes s |}.

Definition count_transferred_file (s : state) : state :=
  {| world := world s; log := log s;
     total_files := total_files s; total_bytes := total_bytes s;
     transferred_files := transferred_files s + 1;
     transferred_bytes := transferred_bytes s |}.

Definition count_transferred_bytes (n : N) (s : state) : state :=
  {| world := world s; log := log s;
     total_files := total_files s; total_bytes := total_bytes s;
     transferred_files := transferred_files s;
     transferred_bytes := transferred_bytes s + n |}.

(** *** Lines 132-138: the destination root

    [exists()] is outside the [try]: its exception leaves [main].  The
    notice of line 135 is inside the [try]: if it raises, the handler of
    line 136 runs as it does when [mkdir] raises.  The notice of line 137 is
    in the handler: if it raises, its exception leaves [main] and line 138
    is not reached. *)
Definition ensure_dest_root (dest_root : path) (s : state)
    : option outcome * state :=
  match path_exists dest_root (world s) with
  | inr e => (Some (Uncaught e), s)
  | inl true => (None, s)
  | inl false =>
      let '(w, r) := path_mkdir dest_root (world s) in
      let s := emit (CallMkdir dest_root r) (set_world w s) in
      let '(r, s) := match r with
                     | Some e => (Some e, s)
                     | None => print (CreatedDestination dest_root) s
                     end in
      match r with
      | None => (None, s)
      | Some e =>
          match print (FailedToCreate dest_root e) s with
          | (Some e', s) => (Some (Uncaught e'), s)
          | (None, s) => (Some (SysExit 1), s)
          end
      end
  end.

(** *** Lines 166-169: MOVE needs a writable source

    The operation to use, and the outcome of the notice of line 168, which
    is printed before [operation] is assigned. *)
Definition effective_operation (operation : op) (source_root : path)
    (s : state) : op * (option exn * state) :=
  match operation with
  | MOVE =>
      if os_access_W_OK source_root (world s) then (MOVE, (None, s))
      else (COPY, print (SwitchingToCopy source_root) s)
  | COPY => (COPY, (None, s))
  end.

(** *** Lines 174-185: the discovery pass *)
Definition scan_file (root : path) (s : state) (fname : pystr) : state :=
  let s := count_file s in
  let filepath := path_join root fname in
  let r := stat_st_size filepath (world s) in
  let s := emit (CallStat filepath r) s in
  match r with
  | Some st_size => count_bytes st_size s
  | None => s
  end.

Fixpoint scan_walk (g : walker World) (s : state) : state :=
  match g with
  | StopIteration => s
  | Yield root dirs files next =>
      let s := fold_left (scan_file root) files s in
      scan_walk (next (world s)) s
  end.

Definition discovery_pass (source_root : path) (s : state) : state :=
  scan_walk (os_walk source_root (world s)) s.

(** *** Lines 239-269: one file of the transfer pass

    The failure notices of lines 259 and 265 are printed in the handlers:
    when one raises, its exception leaves the loops and [main]. *)
Definition transfer_file (operation : op) (dest_allowed : gset pychar)
    (root dest_subdir : path) (s : state) (fname : pystr)
    : option exn * state :=
  let s := count_transferred_file s in
  let src_path := path_join root fname in
  let safe_name := sanitize_filename fname dest_allowed in
  and_then
    (if decide (safe_name ≠ fname)
     then print (Renaming fname safe_name) s else (None, s))
    (λ s,
       let dst_path := path_join dest_subdir safe_name in
       let r := stat_st_size src_path (world s) in
       let s := emit (CallStat src_path r) s in
       let fsize := default 0 r in
       match operation with
       | COPY =>
           let '(w, r) := shutil_copy2 src_path dst_path (world s) in
           let s := emit (CallCopy2 src_path dst_path r) (set_world w s) in
           match r with
           | Some e => print (FailedToCopy src_path e) s
           | None =>
               let s := count_transferred_bytes fsize s in
               (None,
                emit (ProgressAdvance fsize (transferred_files s)
                                      (total_files s)) s)
           end
       | MOVE =>
           let '(w, r) := shutil_move src_path dst_path (world s) in
           let s := emit (CallMove src_path dst_path r) (set_world w s) in
           match r with
           | Some e => print (FailedToMove src_path e) s
           | None =>
               let s := count_transferred_bytes fsize s in
               (None,
                emit (ProgressAdvance fsize (transferred_files s)
                                      (total_files s)) s)
           end
       end).

(** The loop of line 239. *)
Fixpoint transfer_files (operation : op) (dest_allowed : gset pychar)
    (root dest_subdir : path) (files : list pystr) (s : state)
    : option exn * state :=
  match files with
  | [] => (None, s)
  | fname :: files =>
      and_then (transfer_file operation dest_allowed root dest_subdir s fname)
               (transfer_files operation dest_allowed root dest_subdir files)
  end.

(** *** Lines 232-269: the transfer pass

    [relative_to] and [mkdir] are outside any [try]: an exception of
    theirs leaves the loop and [main]. *)

(** The body of the outer loop, for one entry of the walk. *)
Definition transfer_dir (operation : op) (dest_allowed : gset pychar)
    (source_root dest_root : path) (root : path) (files : list pystr)
    (s : state) : option exn * state :=
  match relative_to root source_root with
  | None => (Some ValueError, s)
  | Some rel_root =>
      let dest_subdir := dest_root ++ rel_root in
      let '(w, r) := path_mkdir dest_subdir (world s) in
      let s := emit (CallMkdir dest_subdir r) (set_world w s) in
      match r with
      | Some e => (Some e, s)
      | None =>
          transfer_files operation dest_allowed root dest_subdir files s
      end
  end.

Fixpoint transfer_walk (operation : op) (dest_allowed : gset pychar)
    (source_root dest_root : path) (g : walker World) (s : state)
    : option exn * state :=
  match g with
  | StopIteration => (None, s)
  | Yield root dirs files next =>
      match transfer_dir operation dest_allowed source_root dest_root
                         root files s with
      | (Some e, s) => (Some e, s)
      | (None, s) =>
          transfer_walk operation dest_allowed source_root dest_root
                        (next (world s)) s
      end
  end.

Definition transfer_pass (operation : op) (dest_allowed : gset pychar)
    (source_root dest_root : path) (s : state) : option exn * state :=
  transfer_walk operation dest_allowed source_root dest_root
                (os_walk source_root (world s)) s.

(** *** Lines 171-273: summary, discovery, confirmation, transfer *)
Definition execute (a : answers) (operation : op)
    (dest_allowed : gset pychar) (s : state) : outcome * state :=
  raising (print (Summary (source_root a) (source_fs a)
                          (dest_root a) (dest_fs a) operation) s) (λ s,
  raising (print Scanning s) (λ s,
  let s := discovery_pass (source_root a) s in
  if decide (total_files s = 0)
  then raising (print (NoFilesFound (source_root a)) s)
               (λ s, (SysExit 0, s))
  else
    raising (print (Found (total_files s) (total_bytes s)) s) (λ s,
    if negb (proceed a)
    then raising (print Canceled s) (λ s, (SysExit 0, s))
    else
      raising (print Transferring s) (λ s,
      raising (transfer_pass operation dest_allowed
                             (source_root a) (dest_root a) s) (λ s,
      let s := emit (ProgressCompleted (total_bytes s)) s in
      raising (print (Done (transferred_files s) (transferred_bytes s)) s)
              (λ s, (Returned, s))))))).

(** *** Lines 150-273: the destination profile, the operation, the
    passes *)
Definition after_dest_root (a : answers) (s : state) : outcome * state :=
  match FILESYSTEMS !! dest_fs a with
  | None => (Uncaught KeyError, s)
  | Some dest_allowed =>
      let '(operation, r) :=
        effective_operation (operation a) (source_root a) s in
      raising r (execute a operation dest_allowed)
  end.

(** *** main (lines 96-273), the prompts answered by [a] *)
Definition main (a : answers) (w : World) : outcome * state :=
  raising (print Title (initial w)) (λ s,
  match FILESYSTEMS !! source_fs a with
  | None => (Uncaught KeyError, s)
  | Some source_allowed =>
      match ensure_dest_root (dest_root a) s with
      | (Some o, s) => (o, s)
      | (None, s) => after_dest_root a s
      end
  end).

End Main.

Arguments state World : clear implicits.

(** ** An in-memory filesystem

    A small implementation of the class [OS], used to run [main] on
    concrete trees.  Files and directories are kept in listing order; a
    path in [readonly] refuses writes (for a directory: creating, replacing
    or removing an entry in it).  The path [[]] is the root directory and
    always exists. *)
Module MemFS.

Record t := {
  files : list (path * pystr);
  dirs : list path;
  readonly : list path;
}.

Fixpoint assoc (p : path) (l : list (path * pystr)) : option pystr :=
  match l with
  | [] => None
  | (q, c) :: l => if decide (q = p) then Some c else assoc p l
  end.

(** Replaces the content of [p] in place, or adds [p] at the end. *)
Fixpoint assoc_set (p : path) (c : pystr) (l : list (path * pystr))
    : list (path * pystr) :=
  match l with
  | [] => [(p, c)]
  | (q, d) :: l =>
      if decide (q = p) then (q, c) :: l else (q, d) :: assoc_set p c l
  end.

Definition assoc_del (p : path) (l : list (path * pystr))
    : list (path * pystr) :=
  filter (λ e, e.1 ≠ p) l.

Definition is_file (p : path) (fs : t) : bool :=
  bool_decide (is_Some (assoc p (files fs))).

Definition is_dir (p : path) (fs : t) : bool :=
  bool_decide (p = [] ∨ p ∈ dirs fs).

Definition writable (p : path) (fs : t) : bool :=
  bool_decide (p ∉ readonly fs).

Definition parent (p : path) : path := removelast p.

Definition basename (p : path) : pystr := List.last p [].

Definition with_files (l : list (path * pystr)) (fs : t) : t :=
  {| files := l; dirs := dirs fs; readonly := readonly fs |}.

Definition add_dir (p : path) (fs : t) : t :=
  {| files := files fs; dirs := dirs fs ++ [p]; readonly := readonly fs |}.

Definition exists_ (p : path) (fs : t) : bool := is_file p fs || is_dir p fs.

Definition access_w (p : path) (fs : t) : bool :=
  exists_ p fs && writable p fs.

Definition st_size (p : path) (fs : t) : option N :=
  (λ c : pystr, N.of_nat (length c)) <$> assoc p (files fs).

(** [mkdir(parents=True, exist_ok=True)]: walks down from the existing
    directory [base], creating what is missing. *)
Fixpoint mkdir_from (base rest : path) (fs : t) : t * option exn :=
  match rest with
  | [] => (fs, None)
  | name :: rest' =>
      let p := path_join base name in
      if is_dir p fs then mkdir_from p rest' fs
      else if is_file p fs
      then (fs, Some (match rest' with
                      | [] => FileExistsError
                      | _ => NotADirectoryError
                      end))
      else if writable base fs then mkdir_from p rest' (add_dir p fs)
      else (fs, Some PermissionError)
  end.

Definition mkdir (p : path) (fs : t) : t * option exn := mkdir_from [] p fs.

(** [shutil.copy2]: a destination that is a directory receives the file
    under its own name; an existing destination file is replaced. *)
Definition copy2 (src dst : path) (fs : t) : t * option exn :=
  match assoc src (files fs) with
  | None => (fs, Some FileNotFoundError)
  | Some c =>
      let dst := if is_dir dst fs then path_join dst (basename src) else dst in
      if decide (src = dst) then (fs, Some SameFileError)
      else if negb (is_dir (parent dst) fs) then (fs, Some FileNotFoundError)
      else if negb (writable (if is_file dst fs then dst else parent dst) fs)
      then (fs, Some PermissionError)
      else (with_files (assoc_set dst c (files fs)) fs, None)
  end.

(** [shutil.move] of a file: [os.rename] when both directories accept
    it, otherwise a copy followed by the removal of the source. *)
Definition move (src dst : path) (fs : t) : t * option exn :=
  match assoc src (files fs) with
  | None => (fs, Some FileNotFoundError)
  | Some c =>
      let real_dst :=
        if is_dir dst fs then path_join dst (basename src) else dst in
      if is_dir dst fs && exists_ real_dst fs then (fs, Some FileExistsError)
      else if is_dir (parent real_dst) fs && writable (parent src) fs
              && writable (parent real_dst) fs
      then (with_files (assoc_set real_dst c (assoc_del src (files fs))) fs, None)
      else
        match copy2 src real_dst fs with
        | (fs, Some e) => (fs, Some e)
        | (fs, None) =>
            if writable (parent src) fs
            then (with_files (assoc_del src (files fs)) fs, None)
            else (fs, Some PermissionError)
        end
  end.

(** The names of the entries of [l] that lie directly in [top]. *)
Definition children (top : path) (l : list path) : list pystr :=
  omap (λ q, match relative_to q top with
             | Some [name] => Some name
             | _ => None
             end) l.

(** [os.walk], top down: a directory is listed when the loop reaches it;
    [stack] holds the directories still to visit.  A path that is not a
    directory is skipped.  [fuel] bounds the number of visits. *)
Fixpoint walk_from (fuel : nat) (stack : list path) (fs : t) : walker t :=
  match fuel with
  | O => StopIteration
  | S fuel =>
      match stack with
      | [] => StopIteration
      | top :: stack =>
          if is_dir top fs
          then
            let ds := children top (dirs fs) in
            Yield top ds (children top (files fs).*1)
                  (walk_from fuel (map (path_join top) ds ++ stack))
          else walk_from fuel stack fs
      end
  end.

Definition walk (top : path) (fs : t) : walker t := walk_from 64 [top] fs.

(** The path as [str] shows it, a slash before each component. *)
Definition render (p : path) : pystr := concat (map (cons 47) p).

(** The text goes on to a closing bracket with no opening bracket
    before it. *)
Fixpoint tag_ends (text : pystr) : bool :=
  match text with
  | [] => false
  | c :: rest =>
      if decide (c = 93) then true
      else if decide (c = 91) then false
      else tag_ends rest
  end.

(** The text holds a closing tag: an opening bracket, a slash, and
    further on a closing bracket. *)
Fixpoint closes_tag (text : pystr) : bool :=
  match text with
  | [] => false
  | c :: rest =>
      (bool_decide (c = 91)
       && match rest with
          | d :: rest' => bool_decide (d = 47) && tag_ends rest'
          | [] => false
          end)
      || closes_tag rest
  end.

(** The paths and names a notice interpolates.  The text of an exception
    is left out: it shows the paths of the call that raised it, which in
    the runs below hold a bracket only where the path of the notice
    does. *)
Definition texts (m : notice) : list pystr :=
  match m with
  | CreatedDestination p | FailedToCreate p _ | SwitchingToCopy p
  | NoFilesFound p | FailedToCopy p _ | FailedToMove p _ => [render p]
  | Summary source_root _ dest_root _ _ =>
      [render source_root; render dest_root]
  | Renaming fname safe_name => [fname; safe_name]
  | _ => []
  end.

(** A reading of rich for the runs below, whose texts hold no backslash:
    a notice is refused when a text it interpolates holds a closing tag,
    which closes nothing or closes the tag of the format string before the
    format string does, and printed otherwise. *)
Definition print_error (m : notice) : option exn :=
  if existsb closes_tag (texts m) then Some MarkupError else None.

(** [exists()] never raises here. *)
#[export] Instance os : OS t := {|
  path_exists := λ p fs, inl (exists_ p fs);
  os_access_W_OK := access_w;
  stat_st_size := st_size;
  path_mkdir := mkdir;
  shutil_copy2 := copy2;
  shutil_move := move;
  os_walk := walk;
  console_print := print_error;
|}.

End MemFS.
(** ** Vocabulary of the statements *)

(** The character the sanitizer is specified to write for [c]: [c] itself
    when it is legal, the placeholder otherwise. *)
Definition expected_char (allowed : gset pychar) (c : pychar) : pychar :=
  if decide (c ∈ allowed) then c else underscore.

(** Some character of [name] is not allowed: a substitution takes place. *)
Definition substitutes (allowed : gset pychar) (name : pystr) : Prop :=
  Exists (λ c, c ∉ allowed) name.

(** The bytes read by the [stat] calls of a log; a call that raised
    counts for nothing. *)
Definition stat_size (e : event) : N :=
  match e with
  | CallStat _ (Some st_size) => st_size
  | _ => 0
  end.

Definition stat_sum (l : list event) : N := foldr (λ e n, stat_size e + n) 0 l.

(** The events that hand a file to [shutil.copy2] or [shutil.move]. *)
Definition is_transfer (e : event) : Prop :=
  match e with
  | CallCopy2 _ _ _ | CallMove _ _ _ => True
  | _ => False
  end.

Definition is_move (e : event) : Prop :=
  match e with
  | CallMove _ _ _ => True
  | _ => False
  end.

(** The library function [main] calls to transfer a file under
    [operation]. *)
Definition shutil_transfer {World : Type} `{OS World} (operation : op)
    : path → path → World → World * option exn :=
  match operation with
  | COPY => shutil_copy2
  | MOVE => shutil_move
  end.

(** The notices that report a file as failed. *)
Definition reports_failure (e : event) : Prop :=
  match e with
  | Print (FailedToCopy _ _) | Print (FailedToMove _ _) => True
  | _ => False
  end.

(** The call [main] makes to transfer a file under [operation]. *)
Definition transfer_call (operation : op) (src dst : path) (r : option exn)
    : event :=
  match operation with
  | COPY => CallCopy2 src dst r
  | MOVE => CallMove src dst r
  end.

(** The notice [main] prints when that call raises [e]. *)
Definition failure_notice (operation : op) (src : path) (e : exn) : event :=
  match operation with
  | COPY => Print (FailedToCopy src e)
  | MOVE => Print (FailedToMove src e)
  end.

(** What the transfer pass logs for the file [fname] of [root], given the
    result [size] of its [stat] and the result [res] of its transfer call;
    [n] is the count of files shown by the progress bar. *)
Definition file_events (operation : op) (dest_allowed : gset pychar)
    (root dest_subdir : path) (n total : N) (fname : pystr)
    (size : option N) (res : option exn) : list event :=
  let src_path := path_join root fname in
  let safe_name := sanitize_filename fname dest_allowed in
  (if decide (safe_name ≠ fname)
   then [Print (Renaming fname safe_name)] else [])
  ++ [CallStat src_path size;
      transfer_call operation src_path (path_join dest_subdir safe_name) res;
      match res with
      | Some e => failure_notice operation src_path e
      | None => ProgressAdvance (default 0 size) n total
      end].

(** The event [e] creates no directory, and if it transfers a file, that
    file is some [fname] of [files], read from [root] and written to
    [dest_subdir] under its sanitized name. *)
Definition serves (dest_allowed : gset pychar) (root dest_subdir : path)
    (files : list pystr) (e : event) : Prop :=
  match e with
  | CallMkdir _ _ => False
  | CallCopy2 src dst _ | CallMove src dst _ =>
      ∃ fname, fname ∈ files ∧ src = path_join root fname
               ∧ dst = path_join dest_subdir (sanitize_filename fname dest_allowed)
  | _ => True
  end.

(** What the transfer pass has logged for a file whose transfer call
    raised, when the failure notice is refused. *)
Definition unreported_events (operation : op) (dest_allowed : gset pychar)
    (root dest_subdir : path) (fname : pystr)
    (size : option N) (res : option exn) : list event :=
  let src_path := path_join root fname in
  let safe_name := sanitize_filename fname dest_allowed in
  (if decide (safe_name ≠ fname)
   then [Print (Renaming fname safe_name)] else [])
  ++ [CallStat src_path size;
      transfer_call operation src_path (path_join dest_subdir safe_name) res].


(** ** Concrete runs on the in-memory filesystem *)

Module Scenario.
Import MemFS.

Definition src : path := [str "src"].
Definition dst : path := [str "dst"].

Definition ask (source dest : path) (dest_fs : string) (operation : op)
    : answers :=
  {| source_root := source; source_fs := "ext4"; dest_root := dest;
     dest_fs := dest_fs; operation := operation; proceed := true |}.

(** Two files of one directory whose names sanitize to a_b.txt. *)
Definition colliding : t :=
  {| files := [(src ++ [str "a:b.txt"], str "first");
               (src ++ [str "a_b.txt"], str "second!")];
     dirs := [src; dst];
     readonly := [] |}.

(** Two files to copy; the destination already holds a file f.txt that
    refuses writes. *)
Definition protected_target : t :=
  {| files := [(src ++ [str "f.txt"], str "hello");
               (src ++ [str "g.txt"], str "bye");
               (dst ++ [str "f.txt"], str "old")];
     dirs := [src; dst];
     readonly := [dst ++ [str "f.txt"]] |}.

(** The destination lies inside the source and already holds a shorter
    file f. *)
Definition nested_dest : t :=
  {| files := [(src ++ [str "f"], str "hello");
               (src ++ [str "out"; str "f"], str "x")];
     dirs := [src; src ++ [str "out"]];
     readonly := [] |}.

(** Two source directories, sub and zzz; the destination already has a
    regular file named sub. *)
Definition blocked_subdir : t :=
  {| files := [(src ++ [str "sub"; str "a.txt"], str "aaa");
               (src ++ [str "zzz"; str "b.txt"], str "bb");
               (dst ++ [str "sub"], str "in the way")];
     dirs := [src; src ++ [str "sub"]; src ++ [str "zzz"]; dst];
     readonly := [] |}.

(** A source that refuses writes, with a file in a directory whose name
    FAT32 forbids. *)
Definition readonly_source : t :=
  {| files := [(src ++ [str "report:final.txt"], str "draft");
               (src ++ [str "a:b"; str "c?d"], str "data")];
     dirs := [src; src ++ [str "a:b"]; dst];
     readonly := [src; src ++ [str "a:b"]] |}.

(** A source that refuses writes: the directory x] of the directory
    src[, whose path reads src[/x] and holds a closing tag. *)
Definition tagged : path := [str "src["; str "x]"].

Definition tagged_source : t :=
  {| files := [(tagged ++ [str "f.txt"], str "data")];
     dirs := [[str "src["]; tagged; dst];
     readonly := [tagged] |}.

End Scenario.
(** ** Vocabulary of the further properties *)

(** The sum of [f] over a log, and the number of its events that satisfy
    [f]. *)
Definition total (f : event → N) (l : list event) : N :=
  foldr (λ e n, f e + n) 0 l.

Definition count (f : event → bool) (l : list event) : N :=
  total (λ e, if f e then 1 else 0) l.

Definition is_stat_call (e : event) : bool :=
  match e with
  | CallStat _ _ => true
  | _ => false
  end.

Definition is_transfer_call (e : event) : bool :=
  match e with
  | CallCopy2 _ _ _ | CallMove _ _ _ => true
  | _ => false
  end.

Definition is_progress (e : event) : bool :=
  match e with
  | ProgressAdvance _ _ _ => true
  | _ => false
  end.

Definition is_failure (e : event) : bool :=
  match e with
  | Print (FailedToCopy _ _) | Print (FailedToMove _ _) => true
  | _ => false
  end.

(** The bytes by which an event advances the progress bar. *)
Definition advance (e : event) : N :=
  match e with
  | ProgressAdvance fsize _ _ => fsize
  | _ => 0
  end.

Definition is_copy (e : event) : Prop :=
  match e with
  | CallCopy2 _ _ _ => True
  | _ => False
  end.

(** The events [main] logs outside the two loops over files: its own
    notices and the completion of the progress bar. *)
Definition quiet (e : event) : Prop :=
  match e with
  | Print (Renaming _ _) | Print (FailedToCopy _ _)
  | Print (FailedToMove _ _) => False
  | Print _ | ProgressCompleted _ => True
  | _ => False
  end.

(** A transfer call that raised. *)
Definition failed_call (e : event) : bool :=
  match e with
  | CallCopy2 _ _ (Some _) | CallMove _ _ (Some _) => true
  | _ => false
  end.

(** What the counters of [s] and its log have in common wherever the run
    stands, or has been ended by an exception: the bytes transferred are
    those shown by the progress bar; the counters are ahead of the calls
    they announce by one at most; and as long as no transfer call raised,
    every byte read is in one of the two byte counters. *)
Definition accounted {World : Type} (s : state World) : Prop :=
  transferred_bytes s = total advance (log s)
  ∧ (count is_transfer_call (log s) ≤ transferred_files s
     ∧ transferred_files s ≤ count is_transfer_call (log s) + 1)
  ∧ (count is_progress (log s) + count is_failure (log s)
     ≤ count is_transfer_call (log s)
     ∧ count is_transfer_call (log s)
       ≤ count is_progress (log s) + count is_failure (log s) + 1)
  ∧ (count is_stat_call (log s) ≤ total_files s + transferred_files s
     ∧ total_files s + transferred_files s ≤ count is_stat_call (log s) + 1)
  ∧ (count failed_call (log s) = 0 →
     total_bytes s + transferred_bytes s = stat_sum (log s)).

(** The counters of [s] agree with its log: between two files, and when
    [main] ends otherwise than by an exception. *)
Definition consistent {World : Type} (s : state World) : Prop :=
  transferred_files s = count is_transfer_call (log s)
  ∧ count is_transfer_call (log s)
    = count is_progress (log s) + count is_failure (log s)
  ∧ count is_stat_call (log s) = total_files s + transferred_files s
  ∧ accounted s.

(** Every transfer call of the log writes into a directory that an earlier
    [mkdir] of the log returned from normally. *)
Definition mirrored (l : list event) : Prop :=
  ∀ pre e post, l = pre ++ e :: post →
    match e with
    | CallCopy2 _ dst _ | CallMove _ dst _ =>
        CallMkdir (removelast dst) None ∈ pre
    | _ => True
    end.

(** A transfer call of the library function that [operation] does not
    use. *)
Definition foreign (operation : op) (e : event) : Prop :=
  match operation with
  | COPY => is_move e
  | MOVE => is_copy e
  end.


(** Nothing has been transferred in [s], and no directory was created but,
    possibly, [dest_root]. *)
Definition idle {World : Type} (dest_root : path) (s : state World) : Prop :=
  Forall (λ e, ¬ is_transfer e ∧ ∀ p r, e = CallMkdir p r → p = dest_root)
         (log s)
  ∧ transferred_files s = 0
  ∧ transferred_bytes s = 0.

(** The answers [a], with another source profile. *)
Definition with_source_fs (fs : string) (a : answers) : answers :=
  {| source_root := source_root a; source_fs := fs;
     dest_root := dest_root a; dest_fs := dest_fs a;
     operation := operation a; proceed := proceed a |}.

(** The event [e], the name of the source profile blanked in the summary
    notice, the one place where [main] shows it. *)
Definition forget_source_fs (e : event) : event :=
  match e with
  | Print (Summary source_root _ dest_root dest_fs operation) =>
      Print (Summary source_root EmptyString dest_root dest_fs operation)
  | _ => e
  end.

(** Two states with the same filesystem and counters, and the same log up to
    the name of the source profile. *)
Definition alike {World : Type} (s1 s2 : state World) : Prop :=
  world s1 = world s2
  ∧ total_files s1 = total_files s2
  ∧ total_bytes s1 = total_bytes s2
  ∧ transferred_files s1 = transferred_files s2
  ∧ transferred_bytes s1 = transferred_bytes s2
  ∧ map forget_source_fs (log s1) = map forget_source_fs (log s2).

(** ** The validators of the prompts (lines 66-92) *)

(** The characters that [str.strip()] removes: those for which
    [str.isspace()] holds. *)
Definition whitespace : pystr :=
  [9; 10; 11; 12; 13; 28; 29; 30; 31; 32; 133; 160; 5760;
   8192; 8193; 8194; 8195; 8196; 8197; 8198; 8199; 8200; 8201; 8202;
   8232; 8233; 8239; 8287; 12288].

Definition isspace (c : pychar) : bool := bool_decide (c ∈ whitespace).

Fixpoint lstrip (text : pystr) : pystr :=
  match text with
  | [] => []
  | c :: rest => if isspace c then lstrip rest else text
  end.

(** [text.strip()] *)
Definition strip (text : pystr) : pystr :=
  reverse (lstrip (reverse (lstrip text))).

Inductive message :=
| PathCannotBeEmpty
| DirectoryDoesNotExist
| DirectoryIsNotWritable
| CannotCreateDirectoryHere (parent : path).

(** [ValidationError(message=..., cursor_position=...)] *)
Record ValidationError := {
  error_message : message;
  cursor_position : nat;
}.

Section Validators.
Context {World : Type} `{OS World}.

(** What the validators take from [pathlib]: the constructor [Path(text)],
    [p.parent] and [p.is_dir()], which raises as [p.exists()] does. *)
Variable Path : pystr → path.
Variable parent : path → path.
Variable path_is_dir : path → World → bool + exn.

(** [PathExistsValidator.validate], on [document.text]: on the left, [None]
    when it returns and the [ValidationError] when it raises one; on the
    right, another exception, which [validate] lets through. *)
Definition PathExistsValidator (document_text : pystr) (w : World)
    : option ValidationError + exn :=
  let text := strip document_text in
  if decide (text = [])
  then inl (Some {| error_message := PathCannotBeEmpty;
                    cursor_position := length document_text |})
  else
    let p := Path text in
    let refused := inl (Some {| error_message := DirectoryDoesNotExist;
                                cursor_position := length document_text |}) in
    match path_exists p w with
    | inr e => inr e
    | inl false => refused
    | inl true =>
        match path_is_dir p w with
        | inr e => inr e
        | inl false => refused
        | inl true => inl None
        end
    end.

(** [PathWritableValidator.validate] *)
Definition PathWritableValidator (document_text : pystr) (w : World)
    : option ValidationError + exn :=
  let text := strip document_text in
  if decide (text = [])
  then inl (Some {| error_message := PathCannotBeEmpty;
                    cursor_position := length document_text |})
  else
    let p := Path text in
    match path_exists p w with
    | inr e => inr e
    | inl true =>
        if negb (os_access_W_OK p w)
        then inl (Some {| error_message := DirectoryIsNotWritable;
                          cursor_position := length document_text |})
        else inl None
    | inl false =>
        let parent := parent p in
        let refused :=
          inl (Some {| error_message := CannotCreateDirectoryHere parent;
                       cursor_position := length document_text |}) in
        match path_exists parent w with
        | inr e => inr e
        | inl false => refused
        | inl true => if negb (os_access_W_OK parent w) then refused
                      else inl None
        end
    end.

End Validators.

(** A reading of [Path(text)] for the in-memory filesystem: the components
    between slashes, the empty ones dropped. *)
Fixpoint split_slash (current : pystr) (text : pystr) : path :=
  match text with
  | [] => match current with [] => [] | _ => [current] end
  | c :: rest =>
      if decide (c = 47)
      then match current with
           | [] => split_slash [] rest
           | _ => current :: split_slash [] rest
           end
      else split_slash (current ++ [c]) rest
  end.

(** ** More concrete runs *)

Module Cases.
Import MemFS Scenario.


(** The answers [a], the confirmation declined. *)
Definition declined (a : answers) : answers :=
  {| source_root := source_root a; source_fs := source_fs a;
     dest_root := dest_root a; dest_fs := dest_fs a;
     operation := operation a; proceed := false |}.

End Cases.

(** The source file of a transfer call. *)
Definition transfer_source (e : event) : option path :=
  match e with
  | CallCopy2 src _ _ | CallMove src _ _ => Some src
  | _ => None
  end.

(** * Properties of the sanitizer *)

Section Sanitizer.
Implicit Types (name acc : pystr) (allowed : gset pychar) (c : pychar).

Lemma sanitize_step_eq allowed acc (b : bool) c :
  sanitize_step allowed (acc, b) c
  = (acc ++ [expected_char allowed c], b || bool_decide (c ∉ allowed)).
Proof.
  unfold sanitize_step, expected_char.
  destruct (decide (c ∈ allowed)) as [Hin|Hout]; cbn [fst snd].
  - rewrite bool_decide_eq_false_2, orb_false_r; [done|]. by intros ?.
  - by rewrite bool_decide_eq_true_2, orb_true_r.
Qed.

Lemma sanitize_fold name allowed acc (b : bool) :
  fold_left (sanitize_step allowed) name (acc, b)
  = (acc ++ map (expected_char allowed) name,
     b || bool_decide (substitutes allowed name)).
Proof.
  revert acc b.
  induction name as [|ch name IH]; intros acc b; cbn [fold_left map].
  - rewrite app_nil_r, bool_decide_eq_false_2, orb_false_r; [done|].
    unfold substitutes. intros Hex. by apply Exists_nil in Hex.
  - rewrite sanitize_step_eq, IH, <- app_assoc, <- orb_assoc.
    f_equal. f_equal. unfold substitutes.
    destruct (decide (ch ∈ allowed)) as [Hin|Hout].
    + rewrite (bool_decide_eq_false_2 (ch ∉ allowed)) by (by intros ?).
      apply bool_decide_ext. rewrite Exists_cons. tauto.
    + rewrite (bool_decide_eq_true_2 (ch ∉ allowed)) by done.
      symmetry. apply bool_decide_eq_true_2. apply Exists_cons. by left.
Qed.

Lemma sanitize_filename_map name allowed :
  sanitize_filename name allowed = map (expected_char allowed) name.
Proof. unfold sanitize_filename, sanitize_loop. by rewrite sanitize_fold. Qed.

Lemma changed_substitutes name allowed :
  changed name allowed = true ↔ substitutes allowed name.
Proof.
  unfold changed, sanitize_loop. rewrite sanitize_fold. simpl.
  apply bool_decide_eq_true.
Qed.

Lemma expected_char_legal allowed c :
  expected_char allowed c ∈ allowed ∨ expected_char allowed c = underscore.
Proof. unfold expected_char. destruct (decide (c ∈ allowed)); auto. Qed.

Lemma expected_char_idem allowed c :
  expected_char allowed (expected_char allowed c) = expected_char allowed c.
Proof.
  destruct (expected_char_legal allowed c) as [Hin|Hus].
  - unfold expected_char at 1. by rewrite decide_True.
  - rewrite Hus. unfold expected_char.
    by destruct (decide (underscore ∈ allowed)).
Qed.

Lemma expected_char_fix allowed c :
  expected_char allowed c = c ↔ c ∈ allowed ∨ c = underscore.
Proof.
  unfold expected_char. destruct (decide (c ∈ allowed)) as [Hin|Hout].
  - split; auto.
  - split; [intros <-; by right|]. intros [Hin|Heq]; [done|by subst].
Qed.

Lemma sanitize_differs name allowed :
  sanitize_filename name allowed ≠ name
  ↔ ∃ c, c ∈ name ∧ (c ∉ allowed) ∧ c ≠ underscore.
Proof.
  rewrite sanitize_filename_map. induction name as [|ch name IH]; simpl.
  - split; [done|]. intros (c & Hc & _). by apply elem_of_nil in Hc.
  - split.
    + intros Hne.
      destruct (decide (expected_char allowed ch = ch)) as [Heq|Hch].
      * assert (map (expected_char allowed) name ≠ name) as Hrest
          by (intros E; apply Hne; by rewrite Heq, E).
        apply IH in Hrest as (c & Hc & Hn). exists c. split; [by right|done].
      * exists ch. split; [by left|].
        rewrite expected_char_fix in Hch. split; intros ?; apply Hch; auto.
    + intros (c & Hc & Hout & Hus) E. injection E as Ech Erest.
      apply elem_of_cons in Hc as [->|Hc].
      * apply expected_char_fix in Ech as [?|?]; done.
      * apply IH; [|done]. by exists c.
Qed.

End Sanitizer.

(** C1.  For every name and every allowed-character set, the sanitized name
    has the length of the name, and its i-th character is the i-th character
    of the name when that one is allowed, the underscore when it is not. *)
Theorem sanitize_filename_pointwise (name : pystr) (allowed : gset pychar) :
  length (sanitize_filename name allowed) = length name
  ∧ ∀ i : nat,
      sanitize_filename name allowed !! i
      = (λ c, if decide (c ∈ allowed) then c else underscore) <$> name !! i.
Proof.
  rewrite sanitize_filename_map. split.
  - apply length_map.
  - intros i. apply list_lookup_fmap.
Qed.

(** C5, as the claim has it, fails: with an allowed set that lacks the
    underscore, the name a_b has its underscore substituted (the flag is set)
    and yet comes back equal to itself. *)
Lemma changed_without_difference :
  ¬ (changed (str "a_b") (list_to_set (str "ab")) = true
     ↔ sanitize_filename (str "a_b") (list_to_set (str "ab")) ≠ str "a_b").
Proof.
  intros [Hdiff _]. apply Hdiff; vm_compute; reflexivity.
Qed.

(** C5, amended.  [sanitize_filename] returns the sanitized name alone.  The
    flag [changed] of its loop is set exactly when some character was
    substituted; the sanitized name differs from the original exactly when
    some substituted character is not itself the underscore; the two agree
    whenever the underscore is allowed. *)
Theorem changed_iff_substitution (name : pystr) (allowed : gset pychar) :
  (changed name allowed = true ↔ ∃ c, c ∈ name ∧ c ∉ allowed)
  ∧ (sanitize_filename name allowed ≠ name
     ↔ ∃ c, c ∈ name ∧ (c ∉ allowed) ∧ c ≠ underscore)
  ∧ (underscore ∈ allowed →
     (changed name allowed = true ↔ sanitize_filename name allowed ≠ name)).
Proof.
  split; [|split].
  - rewrite changed_substitutes. unfold substitutes. apply Exists_exists.
  - apply sanitize_differs.
  - intros Hus. rewrite changed_substitutes, sanitize_differs.
    unfold substitutes. rewrite Exists_exists. split.
    + intros (c & Hc & Hout). exists c. repeat split; [done|done|].
      intros ->. done.
    + intros (c & Hc & Hout & _). by exists c.
Qed.

Lemma changed_iff_substitution_witness :
  changed (str "a:b") windows_allowed = true
  ↔ sanitize_filename (str "a:b") windows_allowed ≠ str "a:b".
Proof.
  apply (changed_iff_substitution (str "a:b") windows_allowed).
  apply (bool_decide_eq_true_1 _). vm_compute. reflexivity.
Defined.

(** C6.  Sanitizing is idempotent, for every name and every allowed set,
    whether the underscore is allowed or not. *)
Theorem sanitize_filename_idempotent (name : pystr) (allowed : gset pychar) :
  sanitize_filename (sanitize_filename name allowed) allowed
  = sanitize_filename name allowed.
Proof.
  rewrite !sanitize_filename_map, map_map.
  apply map_ext. intros c. apply expected_char_idem.
Qed.

(** C10.  Every character of a sanitized name is allowed or is the
    underscore; the table ships exactly five profiles, each of which allows
    the underscore, so a name sanitized against one of them is made of
    characters that profile allows. *)
Theorem sanitized_name_legal :
  (∀ (name : pystr) (allowed : gset pychar) (c : pychar),
     c ∈ sanitize_filename name allowed → c ∈ allowed ∨ c = underscore)
  ∧ dom FILESYSTEMS
    = list_to_set ["FAT32"; "exFAT"; "NTFS"; "ext4"; "HFS+"]%string
  ∧ (∀ (fs : string) (allowed : gset pychar),
       FILESYSTEMS !! fs = Some allowed →
       underscore ∈ allowed
       ∧ ∀ (name : pystr) (c : pychar),
           c ∈ sanitize_filename name allowed → c ∈ allowed).
Proof.
  assert (∀ (name : pystr) (allowed : gset pychar) (c : pychar),
            c ∈ sanitize_filename name allowed → c ∈ allowed ∨ c = underscore)
    as Hchars.
  { intros name allowed c. rewrite sanitize_filename_map.
    intros (c0 & -> & _)%list_elem_of_fmap. apply expected_char_legal. }
  split; [exact Hchars|split].
  - apply (bool_decide_eq_true_1 _). vm_compute. reflexivity.
  - intros fs allowed Hfs.
    assert (underscore ∈ allowed) as Hus.
    { unfold FILESYSTEMS in Hfs.
      repeat (apply lookup_insert_Some in Hfs as [[_ <-]|[_ Hfs]];
              [apply (bool_decide_eq_true_1 _); vm_compute; reflexivity|]).
      by rewrite lookup_empty in Hfs. }
    split; [exact Hus|]. intros name c Hc.
    destruct (Hchars name allowed c Hc) as [Hin| ->]; done.
Qed.

Lemma sanitized_name_legal_witness :
  underscore ∈ windows_allowed
  ∧ ∀ c : pychar,
      c ∈ sanitize_filename (str "report:final.txt") windows_allowed →
      c ∈ windows_allowed.
Proof.
  destruct sanitized_name_legal as (_ & _ & Hshipped).
  destruct (Hshipped "FAT32"%string windows_allowed) as [Hus Hall].
  - vm_compute. reflexivity.
  - split; [exact Hus|]. intros c. apply Hall.
Defined.

(** * Properties of the executor *)

Section Executor.
Context {World : Type} `{OS World}.
Implicit Types (s : state World) (operation : op) (evs : list event).
Implicit Types (root dest_subdir : path) (fname : pystr).

Lemma stat_sum_app evs1 evs2 :
  stat_sum (evs1 ++ evs2) = stat_sum evs1 + stat_sum evs2.
Proof.
  induction evs1 as [|e evs1 IH]; simpl; [done|]. rewrite IH. lia.
Qed.

Lemma total_app (f : event → N) evs1 evs2 :
  total f (evs1 ++ evs2) = total f evs1 + total f evs2.
Proof.
  unfold total. induction evs1 as [|e evs1 IH]; cbn; [done|]. rewrite IH. lia.
Qed.

Lemma count_app (f : event → bool) evs1 evs2 :
  count f (evs1 ++ evs2) = count f evs1 + count f evs2.
Proof. unfold count. apply total_app. Qed.

(** *** Notices *)

(** A notice is logged, or its exception is the result and the state is
    as it was. *)
Lemma print_cases (m : notice) s :
  (markup m ≫= console_print = None ∧ print m s = (None, emit (Print m) s))
  ∨ (∃ e, markup m ≫= console_print = Some e ∧ print m s = (Some e, s)).
Proof.
  unfold print. destruct (markup m ≫= console_print) as [e|].
  - right. by exists e.
  - by left.
Qed.

(** *** One file *)

(** The four ways through the body of the loop of line 239: the notice of
    the new name is refused; the transfer call returns; it raises and the
    failure is reported; it raises and the notice of the failure is
    refused. *)
Lemma transfer_file_cases_exact operation dest_allowed root dest_subdir
    s fname :
  let src_path := path_join root fname in
  let safe_name := sanitize_filename fname dest_allowed in
  let dst_path := path_join dest_subdir safe_name in
  let size := stat_st_size src_path (world s) in
  let wr := shutil_transfer operation src_path dst_path (world s) in
  let after evs n :=
    {| world := wr.1; log := log s ++ evs;
       total_files := total_files s; total_bytes := total_bytes s;
       transferred_files := transferred_files s + 1;
       transferred_bytes := transferred_bytes s + n |} in
  let rs := transfer_file operation dest_allowed root dest_subdir s fname in
  let renamed :=
    safe_name ≠ fname → console_print (Renaming fname safe_name) = None in
  let failure e :=
    match operation with
    | COPY => console_print (FailedToCopy src_path e)
    | MOVE => console_print (FailedToMove src_path e)
    end in
  (∃ e, safe_name ≠ fname
        ∧ console_print (Renaming fname safe_name) = Some e
        ∧ rs = (Some e, count_transferred_file s))
  ∨ (wr.2 = None
     ∧ renamed
     ∧ rs = (None,
             after (file_events operation dest_allowed root dest_subdir
                      (transferred_files s + 1) (total_files s) fname size
                      None)
                   (default 0 size)))
  ∨ (∃ e, wr.2 = Some e
          ∧ renamed
          ∧ failure e = None
          ∧ rs = (None,
                  after (file_events operation dest_allowed root dest_subdir
                           (transferred_files s + 1) (total_files s) fname
                           size (Some e))
                        0))
  ∨ (∃ e e', wr.2 = Some e
             ∧ renamed
             ∧ failure e = Some e'
             ∧ rs = (Some e',
                     after (unreported_events operation dest_allowed root
                              dest_subdir fname size (Some e))
                           0)).
Proof.
  intros src_path safe_name dst_path size wr after rs renamed failure.
  subst rs after wr renamed failure.
  unfold transfer_file, file_events, unreported_events.
  fold src_path safe_name dst_path.
  destruct (decide (safe_name ≠ fname)) as [Hne|Heq].
  - destruct (print_cases (Renaming fname safe_name)
                          (count_transferred_file s))
      as [[Hren ->]|(e & He & ->)].
    2:{ left. exists e. by repeat split. }
    assert (safe_name ≠ fname
            → console_print (Renaming fname safe_name) = None) as Hr
      by (intros _; exact Hren).
    right. cbn [and_then]. cbn [world emit count_transferred_file].
    fold size. unfold shutil_transfer.
    destruct operation.
    + destruct (shutil_copy2 src_path dst_path (world s)) as [w [e|]].
      * destruct (print_cases (FailedToCopy src_path e)
                    (emit (CallCopy2 src_path dst_path (Some e))
                       (set_world w
                          (emit (CallStat src_path size)
                             (emit (Print (Renaming fname safe_name))
                                (count_transferred_file s))))))
          as [[Hfail ->]|(e' & He' & ->)].
        -- right. left. exists e. split; [done|]. split; [done|].
           split; [exact Hfail|]. f_equal.
           unfold emit, set_world, count_transferred_file. cbn.
           rewrite <- !app_assoc, N.add_0_r. reflexivity.
        -- right. right. exists e, e'. split; [done|]. split; [done|].
           split; [exact He'|]. f_equal.
           unfold emit, set_world, count_transferred_file. cbn.
           rewrite <- !app_assoc, N.add_0_r. reflexivity.
      * left. split; [done|]. split; [done|]. f_equal.
        unfold emit, set_world, count_transferred_file,
          count_transferred_bytes. cbn.
        rewrite <- !app_assoc. reflexivity.
    + destruct (shutil_move src_path dst_path (world s)) as [w [e|]].
      * destruct (print_cases (FailedToMove src_path e)
                    (emit (CallMove src_path dst_path (Some e))
                       (set_world w
                          (emit (CallStat src_path size)
                             (emit (Print (Renaming fname safe_name))
                                (count_transferred_file s))))))
          as [[Hfail ->]|(e' & He' & ->)].
        -- right. left. exists e. split; [done|]. split; [done|].
           split; [exact Hfail|]. f_equal.
           unfold emit, set_world, count_transferred_file. cbn.
           rewrite <- !app_assoc, N.add_0_r. reflexivity.
        -- right. right. exists e, e'. split; [done|]. split; [done|].
           split; [exact He'|]. f_equal.
           unfold emit, set_world, count_transferred_file. cbn.
           rewrite <- !app_assoc, N.add_0_r. reflexivity.
      * left. split; [done|]. split; [done|]. f_equal.
        unfold emit, set_world, count_transferred_file,
          count_transferred_bytes. cbn.
        rewrite <- !app_assoc. reflexivity.
  - assert (safe_name ≠ fname
            → console_print (Renaming fname safe_name) = None) as Hr
      by (intros Hne; by destruct Heq).
    right. cbn [and_then]. cbn [world emit count_transferred_file].
    fold size. unfold shutil_transfer.
    destruct operation.
    + destruct (shutil_copy2 src_path dst_path (world s)) as [w [e|]].
      * destruct (print_cases (FailedToCopy src_path e)
                    (emit (CallCopy2 src_path dst_path (Some e))
                       (set_world w
                          (emit (CallStat src_path size)
                             (count_transferred_file s)))))
          as [[Hfail ->]|(e' & He' & ->)].
        -- right. left. exists e. split; [done|]. split; [done|].
           split; [exact Hfail|]. f_equal.
           unfold emit, set_world, count_transferred_file. cbn.
           rewrite <- !app_assoc, N.add_0_r. reflexivity.
        -- right. right. exists e, e'. split; [done|]. split; [done|].
           split; [exact He'|]. f_equal.
           unfold emit, set_world, count_transferred_file. cbn.
           rewrite <- !app_assoc, N.add_0_r. reflexivity.
      * left. split; [done|]. split; [done|]. f_equal.
        unfold emit, set_world, count_transferred_file,
          count_transferred_bytes. cbn.
        rewrite <- !app_assoc. reflexivity.
    + destruct (shutil_move src_path dst_path (world s)) as [w [e|]].
      * destruct (print_cases (FailedToMove src_path e)
                    (emit (CallMove src_path dst_path (Some e))
                       (set_world w
                          (emit (CallStat src_path size)
                             (count_transferred_file s)))))
          as [[Hfail ->]|(e' & He' & ->)].
        -- right. left. exists e. split; [done|]. split; [done|].
           split; [exact Hfail|]. f_equal.
           unfold emit, set_world, count_transferred_file. cbn.
           rewrite <- !app_assoc, N.add_0_r. reflexivity.
        -- right. right. exists e, e'. split; [done|]. split; [done|].
           split; [exact He'|]. f_equal.
           unfold emit, set_world, count_transferred_file. cbn.
           rewrite <- !app_assoc, N.add_0_r. reflexivity.
      * left. split; [done|]. split; [done|]. f_equal.
        unfold emit, set_world, count_transferred_file,
          count_transferred_bytes. cbn.
        rewrite <- !app_assoc. reflexivity.
Qed.

Lemma transfer_file_cases operation dest_allowed root dest_subdir s fname :
  let src_path := path_join root fname in
  let safe_name := sanitize_filename fname dest_allowed in
  let dst_path := path_join dest_subdir safe_name in
  let size := stat_st_size src_path (world s) in
  let wr := shutil_transfer operation src_path dst_path (world s) in
  let after evs n :=
    {| world := wr.1; log := log s ++ evs;
       total_files := total_files s; total_bytes := total_bytes s;
       transferred_files := transferred_files s + 1;
       transferred_bytes := transferred_bytes s + n |} in
  let rs := transfer_file operation dest_allowed root dest_subdir s fname in
  (∃ e, safe_name ≠ fname
        ∧ console_print (Renaming fname safe_name) = Some e
        ∧ rs = (Some e, count_transferred_file s))
  ∨ (wr.2 = None
     ∧ rs = (None,
             after (file_events operation dest_allowed root dest_subdir
                      (transferred_files s + 1) (total_files s) fname size
                      None)
                   (default 0 size)))
  ∨ (∃ e, wr.2 = Some e
          ∧ rs = (None,
                  after (file_events operation dest_allowed root dest_subdir
                           (transferred_files s + 1) (total_files s) fname
                           size (Some e))
                        0))
  ∨ (∃ e e', wr.2 = Some e
             ∧ (match operation with
                | COPY => console_print (FailedToCopy src_path e)
                | MOVE => console_print (FailedToMove src_path e)
                end) = Some e'
             ∧ rs = (Some e',
                     after (unreported_events operation dest_allowed root
                              dest_subdir fname size (Some e))
                           0)).
Proof.
  cbn zeta.
  pose proof (transfer_file_cases_exact operation dest_allowed root
                dest_subdir s fname) as Hc.
  cbn zeta in Hc.
  destruct Hc as [(e & ? & ? & ?)|[(? & _ & ?)|[(e & ? & _ & _ & ?)
                 |(e & e' & ? & _ & ? & ?)]]].
  - left. by exists e.
  - right. by left.
  - right. right. left. by exists e.
  - right. right. right. by exists e, e'.
Qed.
Section FileEvents.
Variables (operation : op) (dest_allowed : gset pychar).
Variables (root dest_subdir : path) (n total : N) (fname : pystr).
Variables (size : option N) (res : option exn).
Let evs := file_events operation dest_allowed root dest_subdir n total
                       fname size res.

Lemma file_events_call :
  transfer_call operation (path_join root fname)
    (path_join dest_subdir (sanitize_filename fname dest_allowed)) res
  ∈ evs.
Proof.
  subst evs. unfold file_events. apply elem_of_app. right.
  apply elem_of_cons. right. apply elem_of_cons. by left.
Qed.

Lemma file_events_failure src e :
  failure_notice operation src e ∈ evs →
  src = path_join root fname ∧ res = Some e.
Proof.
  subst evs. unfold file_events. intros Hin.
  apply elem_of_app in Hin as [Hin|Hin].
  - destruct (decide _); [|by apply elem_of_nil in Hin].
    apply list_elem_of_singleton in Hin. by destruct operation.
  - repeat (apply elem_of_cons in Hin as [Hin|Hin];
            [try by destruct operation|]).
    + destruct res as [e'|]; [|by destruct operation].
      destruct operation; by injection Hin as -> ->.
    + by apply elem_of_nil in Hin.
Qed.

Lemma file_events_serves :
  Forall (serves dest_allowed root dest_subdir [fname]) evs.
Proof.
  subst evs. unfold file_events. apply Forall_app. split.
  - destruct (decide _); repeat constructor.
  - repeat constructor.
    + destruct operation; exists fname; by rewrite list_elem_of_singleton.
    + destruct res, operation; exact I.
Qed.

Lemma file_events_stat_sum : stat_sum evs = default 0 size.
Proof.
  subst evs. unfold file_events. rewrite stat_sum_app.
  destruct (decide _), size, res, operation; cbn; lia.
Qed.

Lemma file_events_no_move :
  operation = COPY → Forall (λ e, ¬ is_move e) evs.
Proof.
  intros ->. subst evs. unfold file_events. apply Forall_app. split.
  - destruct (decide _); repeat constructor; by intros [].
  - destruct res; repeat constructor; by intros [].
Qed.
End FileEvents.

Lemma serves_mono dest_allowed root dest_subdir (l1 l2 : list pystr) e :
  l1 ⊆ l2 →
  serves dest_allowed root dest_subdir l1 e →
  serves dest_allowed root dest_subdir l2 e.
Proof.
  intros Hsub. destruct e; cbn; try done;
    intros (f & Hf & Hsrc & Hdst); exists f; by split; [apply Hsub|].
Qed.

Lemma file_events_unreported operation dest_allowed root dest_subdir
    (n total : N) fname (size : option N) (e : exn) :
  file_events operation dest_allowed root dest_subdir n total fname size
              (Some e)
  = unreported_events operation dest_allowed root dest_subdir fname size
                      (Some e)
    ++ [failure_notice operation (path_join root fname) e].
Proof.
  unfold file_events, unreported_events. by rewrite <- app_assoc.
Qed.

(** Whichever way the body of the loop is left, it has logged a first part
    of the events of the file, all of them when it is left normally, and
    the counters have moved by what that part shows at most. *)
Lemma transfer_file_log operation dest_allowed root dest_subdir s fname :
  let src_path := path_join root fname in
  let dst_path :=
    path_join dest_subdir (sanitize_filename fname dest_allowed) in
  let size := stat_st_size src_path (world s) in
  let wr := shutil_transfer operation src_path dst_path (world s) in
  let rs := transfer_file operation dest_allowed root dest_subdir s fname in
  ∃ evs rest,
    file_events operation dest_allowed root dest_subdir
                (transferred_files s + 1) (total_files s) fname size wr.2
    = evs ++ rest
    ∧ log rs.2 = log s ++ evs
    ∧ (rs.1 = None → rest = [])
    ∧ (world rs.2 = world s ∨ world rs.2 = wr.1)
    ∧ total_files rs.2 = total_files s
    ∧ total_bytes rs.2 = total_bytes s
    ∧ transferred_files rs.2 = transferred_files s + 1
    ∧ transferred_bytes s ≤ transferred_bytes rs.2
    ∧ transferred_bytes rs.2 ≤ transferred_bytes s + stat_sum evs.
Proof.
  cbn zeta.
  pose proof (transfer_file_cases operation dest_allowed root dest_subdir
                s fname) as Hc.
  cbn zeta in Hc.
  destruct Hc as [(e & _ & _ & Hrs)|[(Hres & Hrs)|[(e & Hres & Hrs)
                 |(e & e' & Hres & _ & Hrs)]]];
    rewrite Hrs;
    cbn [fst snd world log total_files total_bytes transferred_files
         transferred_bytes count_transferred_file].
  - eexists [], _. split; [reflexivity|]. rewrite app_nil_r. cbn.
    repeat split; try done; try lia. by left.
  - rewrite Hres. eexists _, []. split; [by rewrite app_nil_r|].
    rewrite file_events_stat_sum.
    repeat split; try done; try lia. by right.
  - rewrite Hres. eexists _, []. split; [by rewrite app_nil_r|].
    repeat split; try done; try lia. by right.
  - rewrite Hres. eexists _, _. split; [apply file_events_unreported|].
    repeat split; try done; try lia. by right.
Qed.

Lemma log_transfer_file operation dest_allowed root dest_subdir s fname e :
  e ∈ log s →
  e ∈ log (transfer_file operation dest_allowed root dest_subdir s fname).2.
Proof.
  intros He.
  destruct (transfer_file_log operation dest_allowed root dest_subdir
              s fname) as (evs & rest & _ & -> & _).
  apply elem_of_app. by left.
Qed.

(** *** Paths *)

Lemma relative_to_app (base rel : path) :
  relative_to (base ++ rel) base = Some rel.
Proof.
  induction base as [|b base IH]; cbn; [done|]. by rewrite decide_True.
Qed.

(** *** The discovery pass *)

Lemma scan_file_eq root s fname :
  let filepath := path_join root fname in
  let size := stat_st_size filepath (world s) in
  scan_file root s fname
  = {| world := world s;
       log := log s ++ [CallStat filepath size];
       total_files := total_files s + 1;
       total_bytes := total_bytes s + default 0 size;
       transferred_files := transferred_files s;
       transferred_bytes := transferred_bytes s |}.
Proof.
  intros filepath size. unfold scan_file. fold filepath. cbn. fold size.
  destruct size; cbn; [done|].
  unfold emit, count_file. cbn. by rewrite N.add_0_r.
Qed.

(** The facts about a stretch of the discovery pass that takes [s] to
    [s'], logging [evs]. *)
Lemma scan_files_spec root (files : list pystr) s :
  let s' := fold_left (scan_file root) files s in
  ∃ evs,
    log s' = log s ++ evs
    ∧ Forall (λ e, ∃ p r, e = CallStat p r) evs
    ∧ world s' = world s
    ∧ total_files s' = total_files s + N.of_nat (length evs)
    ∧ total_bytes s' = total_bytes s + stat_sum evs
    ∧ transferred_files s' = transferred_files s
    ∧ transferred_bytes s' = transferred_bytes s.
Proof.
  revert s. induction files as [|fname files IH]; intros s; cbn zeta.
  - exists []. cbn. rewrite app_nil_r, !N.add_0_r. by repeat split.
  - cbn [fold_left]. rewrite scan_file_eq. cbn zeta.
    set (e := CallStat (path_join root fname)
                       (stat_st_size (path_join root fname) (world s))).
    match goal with |- context [fold_left _ files ?s0] => set (s1 := s0) end.
    destruct (IH s1) as (evs & Hlog & Hstat & Hw & Htf & Htb & Hn & Hb).
    exists (e :: evs).
    split; [by rewrite Hlog; cbn; rewrite <- app_assoc|].
    split; [constructor; [by eexists _, _|done]|].
    rewrite Hw, Htf, Htb, Hn, Hb. cbn [length stat_sum foldr].
    repeat split; try done; cbn; [lia|].
    fold (stat_sum evs).
    destruct (stat_st_size (path_join root fname) (world s)); cbn; lia.
Qed.

Lemma scan_walk_spec (g : walker World) s :
  let s' := scan_walk g s in
  ∃ evs,
    log s' = log s ++ evs
    ∧ Forall (λ e, ∃ p r, e = CallStat p r) evs
    ∧ world s' = world s
    ∧ total_files s' = total_files s + N.of_nat (length evs)
    ∧ total_bytes s' = total_bytes s + stat_sum evs
    ∧ transferred_files s' = transferred_files s
    ∧ transferred_bytes s' = transferred_bytes s.
Proof.
  revert s. induction g as [|root dirs files next IH]; intros s; cbn zeta.
  - exists []. cbn. rewrite app_nil_r, !N.add_0_r. by repeat split.
  - cbn [scan_walk].
    destruct (scan_files_spec root files s)
      as (evs1 & Hlog1 & Hstat1 & Hw1 & Htf1 & Htb1 & Hn1 & Hb1).
    set (s1 := fold_left (scan_file root) files s) in *.
    destruct (IH (world s1) s1)
      as (evs2 & Hlog2 & Hstat2 & Hw2 & Htf2 & Htb2 & Hn2 & Hb2).
    exists (evs1 ++ evs2).
    split; [by rewrite Hlog2, Hlog1, app_assoc|].
    split; [by apply Forall_app|].
    rewrite stat_sum_app, length_app, Hw2, Htf2, Htb2, Hn2, Hb2.
    repeat split; try done; lia.
Qed.

(** *** Invariants

    A property [I] kept by each step of [main], together with a property
    [J] that holds wherever an exception can leave a step taken from
    [I]: [I] holds when [main] returns or exits, [J] when an exception
    leaves it. *)
Section Steps.
Variables I J : state World → Prop.
Variables (operation : op) (dest_allowed : gset pychar).
Hypothesis I_J : ∀ s, I s → J s.
Hypothesis I_quiet : ∀ e s, quiet e → I s → I (emit e s).
Hypothesis I_mkdir : ∀ (p : path) s,
  I s →
  I (emit (CallMkdir p (path_mkdir p (world s)).2)
          (set_world (path_mkdir p (world s)).1 s)).
Hypothesis I_scan : ∀ root s fname, I s → I (scan_file root s fname).
Hypothesis I_file : ∀ root dest_subdir s fname,
  CallMkdir dest_subdir None ∈ log s →
  I s →
  match transfer_file operation dest_allowed root dest_subdir s fname with
  | (None, s') => I s'
  | (Some _, s') => J s'
  end.

Lemma print_step (m : notice) s :
  quiet (Print m) →
  I s →
  match print m s with
  | (None, s') => I s'
  | (Some _, s') => J s'
  end.
Proof.
  intros Hq Hs.
  destruct (print_cases m s) as [[_ ->]|(e & _ & ->)]; [|by apply I_J].
  by apply I_quiet.
Qed.

Lemma scan_walk_invariant (g : walker World) s : I s → I (scan_walk g s).
Proof.
  revert s. induction g as [|root dirs files next IH]; intros s Hs; [done|].
  cbn [scan_walk]. apply IH. clear IH. revert s Hs.
  induction files as [|fname files IHf]; intros s Hs; [done|].
  cbn [fold_left]. by apply IHf, I_scan.
Qed.

Lemma transfer_files_step root dest_subdir (files : list pystr) s :
  CallMkdir dest_subdir None ∈ log s →
  I s →
  match transfer_files operation dest_allowed root dest_subdir files s with
  | (None, s') => I s'
  | (Some _, s') => J s'
  end.
Proof.
  revert s. induction files as [|fname files IH]; intros s Hmk Hs; [done|].
  cbn [transfer_files].
  pose proof (I_file root dest_subdir s fname Hmk Hs) as Hfile.
  pose proof (log_transfer_file operation dest_allowed root dest_subdir
                s fname _ Hmk) as Hmk1.
  destruct (transfer_file operation dest_allowed root dest_subdir s fname)
    as [[e|] s1]; [done|].
  cbn [and_then]. by apply IH.
Qed.

Lemma transfer_dir_step (source_root dest_root : path) root
    (files : list pystr) s :
  I s →
  match transfer_dir operation dest_allowed source_root dest_root
                     root files s with
  | (None, s') => I s'
  | (Some _, s') => J s'
  end.
Proof.
  intros Hs. unfold transfer_dir.
  destruct (relative_to root source_root) as [rel|]; [|by apply I_J].
  pose proof (I_mkdir (dest_root ++ rel) s Hs) as Hmk.
  destruct (path_mkdir (dest_root ++ rel) (world s)) as [w [e|]];
    cbn [fst snd] in Hmk.
  - by apply I_J.
  - apply transfer_files_step; [|done].
    cbn. apply elem_of_app. right. by apply list_elem_of_singleton.
Qed.

Lemma transfer_walk_step (source_root dest_root : path)
    (g : walker World) s :
  I s →
  match transfer_walk operation dest_allowed source_root dest_root g s with
  | (None, s') => I s'
  | (Some _, s') => J s'
  end.
Proof.
  revert s. induction g as [|root dirs files next IH]; intros s Hs; [done|].
  cbn [transfer_walk].
  pose proof (transfer_dir_step source_root dest_root root files s Hs)
    as Hdir.
  destruct (transfer_dir operation dest_allowed source_root dest_root
                         root files s) as [[e|] s1]; [done|].
  by apply IH.
Qed.

Lemma execute_step (a : answers) s :
  I s →
  match execute a operation dest_allowed s with
  | (Uncaught _, s') => J s'
  | (_, s') => I s'
  end.
Proof.
  intros Hs. unfold execute, discovery_pass, transfer_pass.
  pose proof (print_step (Summary (source_root a) (source_fs a)
                            (dest_root a) (dest_fs a) operation) s Logic.I Hs)
    as H1.
  destruct (print _ s) as [[e|] s1]; [done|]. cbn [raising].
  pose proof (print_step Scanning s1 Logic.I H1) as H2.
  destruct (print _ s1) as [[e|] s2]; [done|]. cbn [raising].
  pose proof (scan_walk_invariant (os_walk (source_root a) (world s2)) s2 H2)
    as H3.
  set (s3 := scan_walk _ s2) in *. clearbody s3.
  destruct (decide (total_files s3 = 0)) as [Hnone|Hsome].
  { pose proof (print_step (NoFilesFound (source_root a)) s3 Logic.I H3) as H4.
    by destruct (print _ s3) as [[e|] s4]. }
  pose proof (print_step (Found (total_files s3) (total_bytes s3)) s3
                Logic.I H3) as H4.
  destruct (print _ s3) as [[e|] s4]; [done|]. cbn [raising].
  destruct (proceed a); cbn [negb].
  2:{ pose proof (print_step Canceled s4 Logic.I H4) as H5.
      by destruct (print _ s4) as [[e|] s5]. }
  pose proof (print_step Transferring s4 Logic.I H4) as H5.
  destruct (print _ s4) as [[e|] s5]; [done|]. cbn [raising].
  pose proof (transfer_walk_step (source_root a) (dest_root a)
                (os_walk (source_root a) (world s5)) s5 H5) as H6.
  destruct (transfer_walk operation dest_allowed (source_root a)
              (dest_root a) (os_walk (source_root a) (world s5)) s5)
    as [[e|] s6]; [done|].
  cbn [raising].
  assert (I (emit (ProgressCompleted (total_bytes s6)) s6)) as H7
    by (by apply I_quiet).
  set (s7 := emit _ s6) in *. clearbody s7.
  pose proof (print_step (Done (transferred_files s7) (transferred_bytes s7))
                s7 Logic.I H7) as H8.
  by destruct (print _ s7) as [[e|] s8].
Qed.
End Steps.

(** The same for [main], whatever the operation and the destination
    profile. *)
Lemma main_step (I J : state World → Prop) :
  (∀ s, I s → J s) →
  (∀ e s, quiet e → I s → I (emit e s)) →
  (∀ (p : path) s,
     I s →
     I (emit (CallMkdir p (path_mkdir p (world s)).2)
             (set_world (path_mkdir p (world s)).1 s))) →
  (∀ root s fname, I s → I (scan_file root s fname)) →
  (∀ operation dest_allowed root dest_subdir s fname,
     CallMkdir dest_subdir None ∈ log s →
     I s →
     match transfer_file operation dest_allowed root dest_subdir s fname with
     | (None, s') => I s'
     | (Some _, s') => J s'
     end) →
  ∀ (a : answers) (w : World),
    I (initial w) →
    match main a w with
    | (Uncaught _, s') => J s'
    | (_, s') => I s'
    end.
Proof.
  intros I_J I_quiet I_mkdir I_scan I_file a w H0. unfold main.
  pose proof (print_step I J I_J I_quiet Title (initial w) Logic.I H0) as H1.
  destruct (print Title (initial w)) as [[e|] s1]; [done|]. cbn [raising].
  destruct (FILESYSTEMS !! source_fs a); [|by apply I_J].
  assert (match ensure_dest_root (dest_root a) s1 with
          | (Some (Uncaught _), s') => J s'
          | (_, s') => I s'
          end) as H2.
  { unfold ensure_dest_root.
    destruct (path_exists (dest_root a) (world s1)) as [[|]|e];
      [done| |by apply I_J].
    pose proof (I_mkdir (dest_root a) s1 H1) as Hmk.
    destruct (path_mkdir (dest_root a) (world s1)) as [w' [e|]];
      cbn [fst snd] in Hmk.
    - pose proof (print_step I J I_J I_quiet (FailedToCreate (dest_root a) e)
                    _ Logic.I Hmk) as Hp.
      by destruct (print (FailedToCreate (dest_root a) e) _) as [[e'|] s2].
    - pose proof (print_step I J I_J I_quiet
                    (CreatedDestination (dest_root a)) _ Logic.I Hmk) as Hp.
      destruct (print_cases (CreatedDestination (dest_root a))
                  (emit (CallMkdir (dest_root a) None) (set_world w' s1)))
        as [[_ Hpr]|(e & _ & Hpr)]; rewrite Hpr in Hp |- *; [done|].
      pose proof (print_step I J I_J I_quiet (FailedToCreate (dest_root a) e)
                    _ Logic.I Hmk) as Hp2.
      by destruct (print (FailedToCreate (dest_root a) e) _) as [[e'|] s2]. }
  destruct (ensure_dest_root (dest_root a) s1) as [[o|] s2].
  { destruct o; [done|done|done]. }
  unfold after_dest_root.
  destruct (FILESYSTEMS !! dest_fs a) as [dest_allowed|]; [|by apply I_J].
  assert (match (effective_operation (operation a) (source_root a) s2).2 with
          | (None, s') => I s'
          | (Some _, s') => J s'
          end) as H3.
  { unfold effective_operation. destruct (operation a); [done|].
    destruct (os_access_W_OK _ _); [done|]. cbn [snd].
    by apply (print_step I J I_J I_quiet). }
  destruct (effective_operation _ _ s2) as [operation [[e|] s3]];
    cbn [snd] in H3; [done|].
  cbn [raising].
  exact (execute_step I J operation dest_allowed I_J I_quiet I_mkdir I_scan
           (I_file operation dest_allowed) a s3 H3).
Qed.

(** An invariant that holds as well where an exception leaves a step holds
    when [main] ends, however it ends. *)
Lemma main_invariant (I : state World → Prop) :
  (∀ e s, quiet e → I s → I (emit e s)) →
  (∀ (p : path) s,
     I s →
     I (emit (CallMkdir p (path_mkdir p (world s)).2)
             (set_world (path_mkdir p (world s)).1 s))) →
  (∀ root s fname, I s → I (scan_file root s fname)) →
  (∀ operation dest_allowed root dest_subdir s fname,
     CallMkdir dest_subdir None ∈ log s →
     I s →
     I (transfer_file operation dest_allowed root dest_subdir s fname).2) →
  ∀ (a : answers) (w : World), I (initial w) → I (main a w).2.
Proof.
  intros I_quiet I_mkdir I_scan I_file a w H0.
  pose proof (main_step I I (λ s Hs, Hs) I_quiet I_mkdir I_scan) as Hstep.
  specialize (Hstep
    (λ operation dest_allowed root dest_subdir s fname Hmk Hs,
       match transfer_file operation dest_allowed root dest_subdir s fname
         as r return I r.2 → match r with
                             | (None, s') => I s'
                             | (Some _, s') => I s'
                             end
       with
       | (None, _) => λ Hr, Hr
       | (Some _, _) => λ Hr, Hr
       end (I_file operation dest_allowed root dest_subdir s fname Hmk Hs))
    a w H0).
  by destruct (main a w) as [[| |] s'].
Qed.

(** *** The files of one directory *)

Lemma unreported_events_failure operation dest_allowed root dest_subdir fname
    (size : option N) (res : option exn) (src : path) (e : exn) :
  failure_notice operation src e
  ∉ unreported_events operation dest_allowed root dest_subdir fname size res.
Proof.
  unfold unreported_events. intros Hin.
  apply elem_of_app in Hin as [Hin|Hin].
  - destruct (decide _); [|by apply elem_of_nil in Hin].
    apply list_elem_of_singleton in Hin. by destruct operation.
  - repeat (apply elem_of_cons in Hin as [Hin|Hin];
            [by destruct operation|]).
    by apply elem_of_nil in Hin.
Qed.

Lemma unreported_events_serves operation dest_allowed root dest_subdir fname
    (size : option N) (e : exn) :
  Forall (serves dest_allowed root dest_subdir [fname])
         (unreported_events operation dest_allowed root dest_subdir fname
                            size (Some e)).
Proof.
  pose proof (file_events_serves operation dest_allowed root dest_subdir
                0 0 fname size (Some e)) as Hall.
  rewrite file_events_unreported in Hall.
  by apply Forall_app in Hall as [Hall _].
Qed.

Lemma transfer_file_spec operation dest_allowed root dest_subdir s fname :
  let rs := transfer_file operation dest_allowed root dest_subdir s fname in
  ∃ evs,
    log rs.2 = log s ++ evs
    ∧ (rs.1 = None →
       ∃ r, transfer_call operation (path_join root fname)
              (path_join dest_subdir (sanitize_filename fname dest_allowed))
              r ∈ evs)
    ∧ (∀ src e, failure_notice operation src e ∈ evs →
         ∃ dst, transfer_call operation src dst (Some e) ∈ evs)
    ∧ Forall (serves dest_allowed root dest_subdir [fname]) evs.
Proof.
  cbn zeta.
  pose proof (transfer_file_cases operation dest_allowed root dest_subdir
                s fname) as Hc.
  cbn zeta in Hc.
  destruct Hc as [(e & _ & _ & Hrs)|[(Hres & Hrs)|[(e & Hres & Hrs)
                 |(e & e' & Hres & _ & Hrs)]]];
    rewrite Hrs; cbn [fst snd log count_transferred_file].
  - exists []. rewrite app_nil_r. repeat split; try done.
    intros src e0 Hin. by apply elem_of_nil in Hin.
  - eexists. split; [reflexivity|]. split; [|split].
    + intros _. eexists. apply file_events_call.
    + intros src e Hin. by apply file_events_failure in Hin as [_ ?].
    + apply file_events_serves.
  - eexists. split; [reflexivity|]. split; [|split].
    + intros _. eexists. apply file_events_call.
    + intros src e0 Hin. apply file_events_failure in Hin as [-> <-].
      eexists. apply file_events_call.
    + apply file_events_serves.
  - eexists. split; [reflexivity|]. split; [done|]. split.
    + intros src e0 Hin. by apply unreported_events_failure in Hin.
    + apply unreported_events_serves.
Qed.

Lemma transfer_files_spec operation dest_allowed root dest_subdir
    (files : list pystr) s :
  let rs := transfer_files operation dest_allowed root dest_subdir files s in
  ∃ evs,
    log rs.2 = log s ++ evs
    ∧ (rs.1 = None →
       ∀ fname, fname ∈ files →
         ∃ r, transfer_call operation (path_join root fname)
                (path_join dest_subdir (sanitize_filename fname dest_allowed))
                r ∈ evs)
    ∧ (∀ src e, failure_notice operation src e ∈ evs →
         ∃ dst, transfer_call operation src dst (Some e) ∈ evs)
    ∧ Forall (serves dest_allowed root dest_subdir files) evs.
Proof.
  revert s. induction files as [|fname files IH]; intros s; cbn zeta.
  - exists []. cbn. rewrite app_nil_r. repeat split; try done.
    + intros _ fname Hin. by apply elem_of_nil in Hin.
    + intros src e Hin. by apply elem_of_nil in Hin.
  - cbn [transfer_files].
    destruct (transfer_file_spec operation dest_allowed root dest_subdir
                s fname) as (evs1 & Hlog1 & Hcall1 & Hfail1 & Hserves1).
    assert (Forall (serves dest_allowed root dest_subdir (fname :: files))
                   evs1) as Hserves1'.
    { eapply Forall_impl; [exact Hserves1|].
      intros e. apply serves_mono.
      intros f ->%list_elem_of_singleton. by left. }
    destruct (transfer_file operation dest_allowed root dest_subdir s fname)
      as [[e|] s1]; cbn [fst snd and_then] in *.
    { exists evs1. repeat split; try done. }
    destruct (IH s1) as (evs2 & Hlog2 & Hcall2 & Hfail2 & Hserves2).
    exists (evs1 ++ evs2).
    split; [by rewrite Hlog2, Hlog1, app_assoc|].
    split.
    { intros Hend f [->|Hf]%elem_of_cons.
      - destruct (Hcall1 eq_refl) as [r Hr]. exists r.
        apply elem_of_app. by left.
      - destruct (Hcall2 Hend f Hf) as [r Hr]. exists r.
        apply elem_of_app. by right. }
    split.
    { intros src e [Hin|Hin]%elem_of_app.
      - destruct (Hfail1 src e Hin) as [dst Hdst]. exists dst.
        apply elem_of_app. by left.
      - destruct (Hfail2 src e Hin) as [dst Hdst]. exists dst.
        apply elem_of_app. by right. }
    apply Forall_app. split; [done|].
    eapply Forall_impl; [exact Hserves2|].
    intros e. apply serves_mono. intros f Hf. by right.
Qed.

(** The loop of line 239 over a list in two parts: the second part is
    processed from the state the first part left, unless an exception ended
    the first. *)
Lemma transfer_files_app operation dest_allowed root dest_subdir
    (files1 files2 : list pystr) s :
  transfer_files operation dest_allowed root dest_subdir (files1 ++ files2) s
  = and_then
      (transfer_files operation dest_allowed root dest_subdir files1 s)
      (transfer_files operation dest_allowed root dest_subdir files2).
Proof.
  revert s. induction files1 as [|fname files1 IH]; intros s; [done|].
  cbn [app transfer_files].
  destruct (transfer_file operation dest_allowed root dest_subdir s fname)
    as [[e|] s1]; [done|].
  cbn [and_then]. apply IH.
Qed.

(** *** The bytes of the transfer pass *)

(** The log has grown from that of [s0] by events that account for the
    growth of [transferred_bytes], and [total_bytes] has not moved. *)
Lemma transfer_walk_spec operation dest_allowed (source_root dest_root : path)
    (g : walker World) s :
  let rs := transfer_walk operation dest_allowed source_root dest_root g s in
  ∃ evs,
    log rs.2 = log s ++ evs
    ∧ total_files rs.2 = total_files s
    ∧ total_bytes rs.2 = total_bytes s
    ∧ transferred_bytes s ≤ transferred_bytes rs.2
    ∧ transferred_bytes rs.2 ≤ transferred_bytes s + stat_sum evs.
Proof.
  cbn zeta.
  pose (I := λ s' : state World,
          ∃ evs, log s' = log s ++ evs
                 ∧ total_files s' = total_files s
                 ∧ total_bytes s' = total_bytes s
                 ∧ transferred_bytes s ≤ transferred_bytes s'
                 ∧ transferred_bytes s' ≤ transferred_bytes s + stat_sum evs).
  assert (match transfer_walk operation dest_allowed source_root dest_root
                              g s with
          | (None, s') => I s'
          | (Some _, s') => I s'
          end) as Hstep.
  { apply (transfer_walk_step I I operation dest_allowed (λ s' Hs', Hs')).
    - intros p s' (evs & Hlog & Htf & Htb & Hlo & Hhi).
      exists (evs ++ [CallMkdir p (path_mkdir p (world s')).2]).
      cbn. rewrite Hlog, <- app_assoc, stat_sum_app. cbn.
      repeat split; try done; lia.
    - intros root dest_subdir s' fname _
        (evs & Hlog & Htf & Htb & Hlo & Hhi).
      destruct (transfer_file_log operation dest_allowed root dest_subdir
                  s' fname)
        as (evs1 & rest & _ & Hlog1 & _ & _ & Htf1 & Htb1 & _ & Hlo1 & Hhi1).
      assert (I (transfer_file operation dest_allowed root dest_subdir
                               s' fname).2) as Hfile.
      { exists (evs ++ evs1).
        rewrite Hlog1, Hlog, <- app_assoc, stat_sum_app, Htf1, Htb1.
        repeat split; try done; lia. }
      by destruct (transfer_file operation dest_allowed root dest_subdir
                                 s' fname) as [[e|] s1].
    - exists []. rewrite app_nil_r. cbn. repeat split; try done; lia. }
  by destruct (transfer_walk operation dest_allowed source_root dest_root
                             g s) as [[e|] s'].
Qed.

Lemma main_accounted (a : answers) (w : World) :
  let s := (main a w).2 in
  total_bytes s + transferred_bytes s ≤ stat_sum (log s).
Proof.
  apply (main_invariant
           (λ s, total_bytes s + transferred_bytes s ≤ stat_sum (log s))).
  - intros e s Hq Hs. cbn. rewrite stat_sum_app.
    destruct e as [[]| | | | | |]; cbn in Hq |- *; try done; lia.
  - intros p s Hs. cbn. rewrite stat_sum_app. cbn. lia.
  - intros root s fname Hs. rewrite scan_file_eq. cbn.
    rewrite stat_sum_app. cbn.
    destruct (stat_st_size (path_join root fname) (world s)); cbn; lia.
  - intros operation dest_allowed root dest_subdir s fname _ Hs.
    destruct (transfer_file_log operation dest_allowed root dest_subdir
                s fname)
      as (evs1 & rest & _ & Hlog1 & _ & _ & _ & Htb1 & _ & Hlo1 & Hhi1).
    rewrite Hlog1, stat_sum_app, Htb1. lia.
  - cbn. lia.
Qed.

(** C3, amended.  The transfer pass makes no collision check: when the
    loop over the files of a directory runs to its end, two files whose
    names sanitize to the same name have both been handed to the transfer
    call, with the same destination path; and whether it does or not, a
    failure is reported for a file only when the transfer call for that
    file raised. *)
Theorem colliding_names_share_destination operation dest_allowed
    root dest_subdir (files : list pystr) s (fname1 fname2 : pystr) :
  fname1 ∈ files →
  fname2 ∈ files →
  sanitize_filename fname1 dest_allowed
  = sanitize_filename fname2 dest_allowed →
  let rs := transfer_files operation dest_allowed root dest_subdir files s in
  let dst_path :=
    path_join dest_subdir (sanitize_filename fname1 dest_allowed) in
  ∃ evs,
    log rs.2 = log s ++ evs
    ∧ (rs.1 = None →
       (∃ r1, transfer_call operation (path_join root fname1) dst_path r1
              ∈ evs)
       ∧ (∃ r2, transfer_call operation (path_join root fname2) dst_path r2
                ∈ evs))
    ∧ (∀ src e, failure_notice operation src e ∈ evs →
         ∃ dst, transfer_call operation src dst (Some e) ∈ evs).
Proof.
  intros H1 H2 Hsame rs dst_path.
  destruct (transfer_files_spec operation dest_allowed root dest_subdir
              files s) as (evs & Hlog & Hcall & Hfail & _).
  exists evs. split; [exact Hlog|]. split; [|exact Hfail].
  intros Hend. split; [by apply Hcall|].
  subst dst_path. rewrite Hsame. by apply Hcall.
Qed.

(** C4, amended.  The discovery pass adds to [total_bytes] the sum of the
    sizes it reads, one [stat] for each file counted, a failed [stat]
    counting for nothing.  The transfer pass reads each size again: after
    every file, and at the end of the pass, [transferred_bytes] has grown
    by at most the sum of the sizes read since, and [total_bytes] has not
    moved.  For a whole run the two counters together stay below the sum
    of all the sizes read. *)
Theorem byte_accounting :
  (∀ (source_root : path) s,
     let s' := discovery_pass source_root s in
     ∃ evs,
       log s' = log s ++ evs
       ∧ Forall (λ e, ∃ p r, e = CallStat p r) evs
       ∧ total_files s' = total_files s + N.of_nat (length evs)
       ∧ total_bytes s' = total_bytes s + stat_sum evs)
  ∧ (∀ operation dest_allowed root dest_subdir s fname,
       let s' := (transfer_file operation dest_allowed root dest_subdir
                                s fname).2 in
       ∃ evs,
         log s' = log s ++ evs
         ∧ total_bytes s' = total_bytes s
         ∧ transferred_bytes s ≤ transferred_bytes s'
         ∧ transferred_bytes s' ≤ transferred_bytes s + stat_sum evs)
  ∧ (∀ operation dest_allowed (source_root dest_root : path) s,
       let s' := (transfer_pass operation dest_allowed
                                source_root dest_root s).2 in
       ∃ evs,
         log s' = log s ++ evs
         ∧ total_bytes s' = total_bytes s
         ∧ transferred_bytes s ≤ transferred_bytes s'
         ∧ transferred_bytes s' ≤ transferred_bytes s + stat_sum evs)
  ∧ (∀ (a : answers) (w : World),
       let s := (main a w).2 in
       total_bytes s + transferred_bytes s ≤ stat_sum (log s)).
Proof.
  split; [|split; [|split]].
  - intros source_root s s'. subst s'. unfold discovery_pass.
    destruct (scan_walk_spec (os_walk source_root (world s)) s)
      as (evs & Hlog & Hstat & _ & Hn & Hb & _).
    by exists evs.
  - intros operation dest_allowed root dest_subdir s fname s'.
    destruct (transfer_file_log operation dest_allowed root dest_subdir
                s fname)
      as (evs & rest & _ & Hlog & _ & _ & _ & Hb & _ & Hlo & Hhi).
    by exists evs.
  - intros operation dest_allowed source_root dest_root s s'. subst s'.
    unfold transfer_pass.
    destruct (transfer_walk_spec operation dest_allowed source_root dest_root
                (os_walk source_root (world s)) s)
      as (evs & Hlog & _ & Hb & Hlo & Hhi).
    by exists evs.
  - apply main_accounted.
Qed.

(** *** Failures *)

(** A file whose transfer call raises adds nothing to [transferred_bytes]
    and is counted in [transferred_files] all the same: line 240 runs
    before the attempt; when the loop goes on to the next file, the
    failure has been reported. *)
Lemma failed_transfer_counters operation dest_allowed root dest_subdir
    s fname e :
  (shutil_transfer operation (path_join root fname)
     (path_join dest_subdir (sanitize_filename fname dest_allowed))
     (world s)).2 = Some e →
  let rs := transfer_file operation dest_allowed root dest_subdir s fname in
  transferred_files rs.2 = transferred_files s + 1
  ∧ transferred_bytes rs.2 = transferred_bytes s
  ∧ (rs.1 = None →
     last (log rs.2)
     = Some (failure_notice operation (path_join root fname) e)).
Proof.
  intros Hres. cbn zeta.
  pose proof (transfer_file_cases operation dest_allowed root dest_subdir
                s fname) as Hc.
  cbn zeta in Hc.
  destruct Hc as [(e1 & _ & _ & Hrs)|[(Hnone & Hrs)|[(e1 & Hsome & Hrs)
                 |(e1 & e' & Hsome & _ & Hrs)]]];
    rewrite Hrs; cbn [fst snd log transferred_files transferred_bytes
                      count_transferred_file].
  - done.
  - congruence.
  - rewrite N.add_0_r. repeat split. intros _.
    assert (e1 = e) as -> by congruence.
    rewrite file_events_unreported, app_assoc. apply last_snoc.
  - rewrite N.add_0_r. by repeat split.
Qed.

(** A directory that cannot be created ends the walk: the entries the
    generator would yield next are never asked for. *)
Lemma mkdir_failure_ends_walk operation dest_allowed
    (source_root dest_root rel : path) dirs (files : list pystr)
    (next : World → walker World) s e :
  (path_mkdir (dest_root ++ rel) (world s)).2 = Some e →
  transfer_walk operation dest_allowed source_root dest_root
                (Yield (source_root ++ rel) dirs files next) s
  = (Some e,
     emit (CallMkdir (dest_root ++ rel) (Some e))
          (set_world (path_mkdir (dest_root ++ rel) (world s)).1 s)).
Proof.
  intros Hmk. cbn [transfer_walk]. unfold transfer_dir.
  rewrite relative_to_app.
  destruct (path_mkdir (dest_root ++ rel) (world s)) as [w r].
  cbn in Hmk. by subst r.
Qed.

(** *** Invariants of the passes *)

Section Invariant.
Variable I : state World → Prop.
Variables (operation : op) (dest_allowed : gset pychar).
Hypothesis I_quiet : ∀ e s, quiet e → I s → I (emit e s).
Hypothesis I_mkdir : ∀ (p : path) s,
  I s →
  I (emit (CallMkdir p (path_mkdir p (world s)).2)
          (set_world (path_mkdir p (world s)).1 s)).
Hypothesis I_scan : ∀ root s fname, I s → I (scan_file root s fname).
Hypothesis I_file : ∀ root dest_subdir s fname,
  CallMkdir dest_subdir None ∈ log s →
  I s →
  I (transfer_file operation dest_allowed root dest_subdir s fname).2.

Lemma I_file_step root dest_subdir s fname :
  CallMkdir dest_subdir None ∈ log s →
  I s →
  match transfer_file operation dest_allowed root dest_subdir s fname with
  | (None, s') => I s'
  | (Some _, s') => I s'
  end.
Proof.
  intros Hmk Hs. pose proof (I_file root dest_subdir s fname Hmk Hs) as Hf.
  by destruct (transfer_file operation dest_allowed root dest_subdir s fname)
    as [[e|] s'].
Qed.

Lemma transfer_files_invariant root dest_subdir (files : list pystr) s :
  CallMkdir dest_subdir None ∈ log s →
  I s →
  I (transfer_files operation dest_allowed root dest_subdir files s).2.
Proof.
  intros Hmk Hs.
  pose proof (transfer_files_step I I operation dest_allowed I_file_step
                root dest_subdir files s Hmk Hs) as Hstep.
  by destruct (transfer_files operation dest_allowed root dest_subdir files s)
    as [[e|] s'].
Qed.


Lemma execute_invariant (a : answers) s :
  I s → I (execute a operation dest_allowed s).2.
Proof.
  intros Hs.
  pose proof (execute_step I I operation dest_allowed (λ s' Hs', Hs')
                I_quiet I_mkdir I_scan I_file_step a s Hs) as Hstep.
  by destruct (execute a operation dest_allowed s) as [[| |] s'].
Qed.
End Invariant.

(** *** What the transfer pass leaves in place *)

Section Preservation.
(** [P] is a property of the filesystem that neither [mkdir] nor the
    transfer call of [operation] destroys, such as the presence of a given
    directory. *)
Variable P : World → Prop.
Variable operation : op.
Hypothesis mkdir_keeps : ∀ p w, P w → P (path_mkdir p w).1.
Hypothesis transfer_keeps :
  ∀ src dst w, P w → P (shutil_transfer operation src dst w).1.

Lemma transfer_file_keeps dest_allowed root dest_subdir s fname :
  P (world s) →
  P (world (transfer_file operation dest_allowed root dest_subdir s fname).2).
Proof.
  intros Hs.
  destruct (transfer_file_log operation dest_allowed root dest_subdir
              s fname) as (evs & rest & _ & _ & _ & [->| ->] & _); [done|].
  by apply transfer_keeps.
Qed.



Lemma execute_keeps (a : answers) dest_allowed s :
  P (world s) → P (world (execute a operation dest_allowed s).2).
Proof.
  apply (execute_invariant (λ s, P (world s))).
  - by intros e s0 _ Hs0.
  - intros p s0 Hs0. by apply mkdir_keeps.
  - intros root s0 fname Hs0. by rewrite scan_file_eq.
  - intros root dest_subdir s0 fname _. apply transfer_file_keeps.
Qed.
End Preservation.

(** *** The tree of the destination *)


Section Mirror.
(** [D p w]: the path [p] is a directory of the filesystem [w].  A [mkdir]
    that returns has made its directory, and no call of the transfer pass
    removes a directory. *)
Variable D : path → World → Prop.
Hypothesis mkdir_makes :
  ∀ p w, (path_mkdir p w).2 = None → D p (path_mkdir p w).1.
Hypothesis mkdir_keeps : ∀ p q w, D q w → D q (path_mkdir p w).1.
Hypothesis copy2_keeps : ∀ src dst q w, D q w → D q (shutil_copy2 src dst w).1.
Hypothesis move_keeps : ∀ src dst q w, D q w → D q (shutil_move src dst w).1.



End Mirror.

End Executor.

(** * Runs on the in-memory filesystem *)

Section MemFSFacts.
Import MemFS.

Lemma mkdir_from_files (base rest : path) (fs : t) :
  files (mkdir_from base rest fs).1 = files fs.
Proof.
  revert base fs. induction rest as [|name rest IH]; intros base fs; [done|].
  cbn [mkdir_from].
  destruct (is_dir (path_join base name) fs); [apply IH|].
  destruct (is_file (path_join base name) fs); [done|].
  destruct (writable base fs); [|done]. by rewrite IH.
Qed.

Lemma is_file_mkdir (p q : path) (fs : t) :
  is_file p (mkdir q fs).1 = is_file p fs.
Proof. unfold is_file, mkdir. by rewrite mkdir_from_files. Qed.

Lemma assoc_set_is_Some (p q : path) (c : pystr) (l : list (path * pystr)) :
  is_Some (assoc p l) → is_Some (assoc p (assoc_set q c l)).
Proof.
  induction l as [|[k d] l IH]; cbn; [by intros [? ?]|].
  destruct (decide (k = p)) as [->|Hne]; intros Hsome.
  - destruct (decide (p = q)); cbn; by rewrite decide_True.
  - destruct (decide (k = q)); cbn; rewrite decide_False by done; auto.
Qed.

Lemma is_file_copy2 (p src dst : path) (fs : t) :
  is_file p fs = true → is_file p (copy2 src dst fs).1 = true.
Proof.
  intros Hp. unfold copy2.
  destruct (assoc src (files fs)) as [c|]; [|done].
  repeat case_match; try done;
    unfold is_file in *; cbn; apply bool_decide_eq_true;
    apply assoc_set_is_Some; by apply bool_decide_eq_true in Hp.
Qed.







End MemFSFacts.

Section Runs.
Import MemFS Scenario.

(** C2, at its failing input.  The copy of f.txt fails on a destination
    file that refuses writes; the failure is reported, g.txt is copied
    after it and the run returns: but the run ends on the notice of two
    files transferred, for three bytes, the size of g.txt alone. *)
Theorem failed_copy_counted_as_transferred :
  let rs := main (ask src dst "FAT32" COPY) protected_target in
  rs.1 = Returned
  ∧ CallCopy2 (src ++ [str "f.txt"]) (dst ++ [str "f.txt"])
              (Some PermissionError) ∈ log rs.2
  ∧ Print (FailedToCopy (src ++ [str "f.txt"]) PermissionError) ∈ log rs.2
  ∧ CallCopy2 (src ++ [str "g.txt"]) (dst ++ [str "g.txt"]) None ∈ log rs.2
  ∧ assoc (dst ++ [str "f.txt"]) (files (world rs.2)) = Some (str "old")
  ∧ transferred_files rs.2 = 2
  ∧ transferred_bytes rs.2 = 3
  ∧ last (log rs.2) = Some (Print (Done 2 3)).
Proof.
  vm_compute. repeat split; apply list_elem_of_In; cbn; tauto.
Qed.

(** C3, as the claim has it, fails.  Of a:b.txt and a_b.txt, both copied
    to a_b.txt, neither is reported as failed, both are counted as
    transferred, and the destination ends with the content of the second:
    the copy of the first is overwritten. *)
Lemma collision_overwrites_silently :
  let rs := main (ask src dst "FAT32" COPY) colliding in
  rs.1 = Returned
  ∧ CallCopy2 (src ++ [str "a:b.txt"]) (dst ++ [str "a_b.txt"]) None
    ∈ log rs.2
  ∧ CallCopy2 (src ++ [str "a_b.txt"]) (dst ++ [str "a_b.txt"]) None
    ∈ log rs.2
  ∧ Forall (λ e, ¬ reports_failure e) (log rs.2)
  ∧ transferred_files rs.2 = 2
  ∧ assoc (src ++ [str "a:b.txt"]) (files (world rs.2)) = Some (str "first")
  ∧ assoc (dst ++ [str "a_b.txt"]) (files (world rs.2))
    = Some (str "second!").
Proof.
  vm_compute. repeat split; try (apply list_elem_of_In; cbn; tauto).
  repeat constructor; by intros [].
Qed.

Lemma colliding_names_share_destination_witness :
  let rs := transfer_files COPY windows_allowed src dst
              [str "a:b.txt"; str "a_b.txt"] (initial colliding) in
  ∃ evs,
    log rs.2 = log (initial colliding) ++ evs
    ∧ (∃ r1, transfer_call COPY (path_join src (str "a:b.txt"))
               (path_join dst (sanitize_filename (str "a:b.txt")
                                                 windows_allowed)) r1
             ∈ evs)
    ∧ (∃ r2, transfer_call COPY (path_join src (str "a_b.txt"))
               (path_join dst (sanitize_filename (str "a:b.txt")
                                                 windows_allowed)) r2
             ∈ evs)
    ∧ (∀ src e, failure_notice COPY src e ∈ evs →
         ∃ dst, transfer_call COPY src dst (Some e) ∈ evs).
Proof.
  intros rs.
  destruct (colliding_names_share_destination COPY windows_allowed src dst
              [str "a:b.txt"; str "a_b.txt"] (initial colliding)
              (str "a:b.txt") (str "a_b.txt"))
    as (evs & Hlog & Hcalls & Hfail).
  - apply list_elem_of_In. cbn. tauto.
  - apply list_elem_of_In. cbn. tauto.
  - vm_compute. reflexivity.
  - exists evs. split; [exact Hlog|].
    destruct Hcalls as [H1 H2]; [vm_compute; reflexivity|].
    split; [exact H1|]. split; [exact H2|exact Hfail].
Defined.

(** C4, as the claim has it, fails.  With the destination inside the
    source, the file f copied into it is found there by the walk and
    copied once more: ten bytes are transferred, six were discovered. *)
Lemma transferred_bytes_exceed_total :
  let s := (main (ask src (src ++ [str "out"]) "FAT32" COPY) nested_dest).2 in
  total_bytes s = 6
  ∧ transferred_bytes s = 10
  ∧ ¬ transferred_bytes s ≤ total_bytes s.
Proof.
  vm_compute. repeat split. intros Hle. by apply Hle.
Qed.

(** C7, at its failing input.  The destination holds a regular file named
    sub, the directory sub cannot be mirrored, and [FileExistsError] leaves
    [main]: the log ends on the failed [mkdir], no file was handed to a
    transfer call, b.txt of the directory zzz included, and no closing
    notice was printed. *)
Theorem mkdir_failure_aborts_run :
  let rs := main (ask src dst "FAT32" COPY) blocked_subdir in
  rs.1 = Uncaught FileExistsError
  ∧ last (log rs.2)
    = Some (CallMkdir (dst ++ [str "sub"]) (Some FileExistsError))
  ∧ Forall (λ e, ¬ is_transfer e) (log rs.2)
  ∧ Forall (λ e, ∀ n b, e ≠ Print (Done n b)) (log rs.2)
  ∧ is_file (src ++ [str "zzz"; str "b.txt"]) blocked_subdir = true
  ∧ is_file (dst ++ [str "zzz"; str "b.txt"]) (world rs.2) = false
  ∧ total_files rs.2 = 2
  ∧ transferred_files rs.2 = 0.
Proof.
  vm_compute. repeat split; repeat constructor; try (by intros []); done.
Qed.

(** C8, at its failing input.  MOVE is asked from the source src[/x],
    which refuses writes.  [console.print] reads the path in the notice of
    the switch as markup and raises [MarkupError] on its closing tag: the
    notice is not printed, the exception leaves [main], and the run ends
    there, after the title, nothing copied to the destination. *)
Theorem switch_notice_raises :
  let a := ask tagged dst "FAT32" MOVE in
  let rs := main a tagged_source in
  os_access_W_OK tagged tagged_source = false
  ∧ console_print (SwitchingToCopy tagged) = Some MarkupError
  ∧ rs.1 = Uncaught MarkupError
  ∧ log rs.2 = [Print Title]
  ∧ Forall (λ e, ∀ p, e ≠ Print (SwitchingToCopy p)) (log rs.2)
  ∧ Forall (λ e, ¬ is_transfer e) (log rs.2)
  ∧ is_file (tagged ++ [str "f.txt"]) (world rs.2) = true
  ∧ is_file (dst ++ [str "f.txt"]) (world rs.2) = false.
Proof.
  vm_compute. repeat split; repeat constructor; try (by intros []); done.
Qed.

(** The run of a source that refuses writes mirrors the directory a:b
    under its own name, though FAT32 forbids the colon, and sanitizes the
    file name c?d inside it. *)
Lemma illegal_directory_name_kept :
  let rs := main (ask src dst "FAT32" MOVE) readonly_source in
  CallMkdir (dst ++ [str "a:b"]) None ∈ log rs.2
  ∧ is_dir (dst ++ [str "a:b"]) (world rs.2) = true
  ∧ is_file (dst ++ [str "a:b"; str "c_d"]) (world rs.2) = true
  ∧ sanitize_filename (str "a:b") windows_allowed = str "a_b".
Proof.
  vm_compute. repeat split. apply list_elem_of_In. cbn. tauto.
Qed.


End Runs.

(** * Further properties of the sanitizer and of the table *)

Section SanitizerFacts.
Implicit Types (name : pystr) (allowed : gset pychar) (c : pychar).

Lemma elem_of_range (a b c : N) : c ∈ range a b ↔ a ≤ c ∧ c < b.
Proof.
  unfold range. rewrite list_elem_of_fmap. split.
  - intros (n & -> & Hn). apply elem_of_seq in Hn. lia.
  - intros [Ha Hb]. exists (N.to_nat c). split; [by rewrite N2Nat.id|].
    apply elem_of_seq. lia.
Qed.

Lemma elem_of_windows_allowed c :
  c ∈ windows_allowed ↔ (32 ≤ c ∧ c ≤ 126) ∧ c ∉ windows_reserved.
Proof.
  unfold windows_allowed.
  rewrite elem_of_list_to_set, list_elem_of_filter, elem_of_range.
  split; intros [? ?]; split; try done; lia.
Qed.

Lemma elem_of_ext4_allowed c : c ∈ ext4_allowed ↔ (1 ≤ c ∧ c ≤ 126) ∧ c ≠ 47.
Proof.
  unfold ext4_allowed.
  rewrite elem_of_list_to_set, list_elem_of_filter, elem_of_range.
  split; intros [? ?]; split; try done; lia.
Qed.

Lemma elem_of_hfs_allowed c : c ∈ hfs_allowed ↔ (1 ≤ c ∧ c ≤ 126) ∧ c ≠ 58.
Proof.
  unfold hfs_allowed.
  rewrite elem_of_list_to_set, list_elem_of_filter, elem_of_range.
  split; intros [? ?]; split; try done; lia.
Qed.

Lemma shipped_profile (fs : string) allowed :
  FILESYSTEMS !! fs = Some allowed →
  allowed = windows_allowed ∨ allowed = ext4_allowed ∨ allowed = hfs_allowed.
Proof.
  unfold FILESYSTEMS. intros Hfs.
  repeat (apply lookup_insert_Some in Hfs as [[_ <-]|[_ Hfs]]; [by auto|]).
  by rewrite lookup_empty in Hfs.
Qed.

Lemma shipped_profile_ascii (fs : string) allowed c :
  FILESYSTEMS !! fs = Some allowed → c ∈ allowed → 1 ≤ c ∧ c ≤ 126.
Proof.
  intros Hfs Hc. destruct (shipped_profile fs allowed Hfs) as [->|[->| ->]].
  - apply elem_of_windows_allowed in Hc. lia.
  - apply elem_of_ext4_allowed in Hc. lia.
  - apply elem_of_hfs_allowed in Hc. lia.
Qed.

Lemma expected_char_allowed allowed c :
  c ∈ allowed → expected_char allowed c = c.
Proof. intros Hc. unfold expected_char. by rewrite decide_True. Qed.

Lemma expected_char_illegal allowed c :
  c ∉ allowed → expected_char allowed c = underscore.
Proof. intros Hc. unfold expected_char. by rewrite decide_False. Qed.

Lemma sanitize_all_illegal name allowed :
  Forall (λ c, c ∉ allowed) name →
  sanitize_filename name allowed = replicate (length name) underscore.
Proof.
  rewrite sanitize_filename_map. induction 1 as [|c name Hc _ IH]; [done|].
  cbn. by rewrite IH, expected_char_illegal.
Qed.

Lemma sanitize_all_legal name allowed :
  Forall (λ c, c ∈ allowed) name → sanitize_filename name allowed = name.
Proof.
  rewrite sanitize_filename_map. induction 1 as [|c name Hc _ IH]; [done|].
  cbn. by rewrite IH, expected_char_allowed.
Qed.

Lemma unchanged_all_legal name allowed :
  changed name allowed = false → Forall (λ c, c ∈ allowed) name.
Proof.
  intros Hch. apply Forall_forall. intros c Hc.
  destruct (decide (c ∈ allowed)) as [|Hout]; [done|].
  assert (changed name allowed = true) as Htrue; [|congruence].
  apply changed_substitutes. apply Exists_exists. by exists c.
Qed.


(** X2.  A name made of characters that are all illegal is sanitized to as
    many underscores. *)
Theorem all_illegal_name_becomes_underscores name allowed :
  Forall (λ c, c ∉ allowed) name →
  sanitize_filename name allowed = replicate (length name) underscore
  ∧ (name ≠ [] → changed name allowed = true).
Proof.
  intros Hall. split; [by apply sanitize_all_illegal|].
  intros Hne. apply changed_substitutes. unfold substitutes.
  destruct Hall as [|c name Hc _]; [done|]. by left.
Qed.

Lemma all_illegal_name_becomes_underscores_witness :
  sanitize_filename (str "<:>") windows_allowed = str "___"
  ∧ (str "<:>" ≠ [] → changed (str "<:>") windows_allowed = true).
Proof.
  apply (all_illegal_name_becomes_underscores (str "<:>") windows_allowed).
  repeat constructor; apply (bool_decide_eq_true_1 _); vm_compute; reflexivity.
Defined.

(** X3.  Under every profile of the table, the NUL character and every
    character beyond ASCII (code 127 and above) is replaced: a name made of
    such characters comes back as underscores, even from ext4 to ext4. *)
Theorem non_ascii_is_replaced (fs : string) allowed name :
  FILESYSTEMS !! fs = Some allowed →
  Forall (λ c, c = 0 ∨ 127 ≤ c) name →
  sanitize_filename name allowed = replicate (length name) underscore.
Proof.
  intros Hfs Hname. apply sanitize_all_illegal.
  eapply Forall_impl; [exact Hname|]. intros c Hc Hin. cbn beta in Hc.
  apply (shipped_profile_ascii fs allowed c Hfs) in Hin. lia.
Qed.

Lemma non_ascii_is_replaced_witness :
  sanitize_filename [233; 0; 26085] ext4_allowed = [95; 95; 95].
Proof.
  apply (non_ascii_is_replaced "ext4" ext4_allowed [233; 0; 26085]).
  - vm_compute. reflexivity.
  - repeat constructor; lia.
Defined.

(** X4.  Sanitizing goes part by part: the sanitized concatenation is the
    concatenation of the sanitized parts, and the flag of the whole is the
    disjunction of the flags of the parts. *)
Theorem sanitize_filename_app name1 name2 allowed :
  sanitize_filename (name1 ++ name2) allowed
  = sanitize_filename name1 allowed ++ sanitize_filename name2 allowed
  ∧ changed (name1 ++ name2) allowed
    = changed name1 allowed || changed name2 allowed.
Proof.
  split.
  - rewrite !sanitize_filename_map. apply map_app.
  - unfold changed, sanitize_loop. rewrite fold_left_app.
    rewrite (sanitize_fold name1 allowed [] false), !sanitize_fold.
    cbn [snd]. by rewrite !orb_false_l.
Qed.

(** X5.  A name sanitized for a Windows profile is legal under every
    profile of the table: sanitizing it again, against any of them, changes
    nothing. *)
Theorem windows_safe_name_is_safe_everywhere (fs : string) allowed name :
  FILESYSTEMS !! fs = Some allowed →
  sanitize_filename (sanitize_filename name windows_allowed) allowed
  = sanitize_filename name windows_allowed
  ∧ changed (sanitize_filename name windows_allowed) allowed = false.
Proof.
  intros Hfs.
  assert (Forall (λ c, c ∈ allowed) (sanitize_filename name windows_allowed))
    as Hlegal.
  { rewrite sanitize_filename_map. apply Forall_fmap, Forall_forall.
    intros c _. cbn.
    assert (expected_char windows_allowed c ∈ windows_allowed) as Hw.
    { destruct (expected_char_legal windows_allowed c) as [Hin| ->]; [done|].
      apply (bool_decide_eq_true_1 _). vm_compute. reflexivity. }
    apply elem_of_windows_allowed in Hw as [Hrange Hres].
    assert (expected_char windows_allowed c ≠ 47
            ∧ expected_char windows_allowed c ≠ 58) as [H47 H58].
    { split; intros Heq; apply Hres; rewrite Heq;
        apply (bool_decide_eq_true_1 _); vm_compute; reflexivity. }
    destruct (shipped_profile fs allowed Hfs) as [->|[->| ->]].
    - by apply elem_of_windows_allowed.
    - apply elem_of_ext4_allowed. split; [lia|done].
    - apply elem_of_hfs_allowed. split; [lia|done]. }
  split; [by apply sanitize_all_legal|].
  destruct (changed _ allowed) eqn:Hch; [|done].
  apply changed_substitutes, Exists_exists in Hch as (c & Hc & Hout).
  rewrite Forall_forall in Hlegal. by destruct Hout; apply Hlegal.
Qed.

Lemma windows_safe_name_is_safe_everywhere_witness :
  sanitize_filename (sanitize_filename (str "a/b:c") windows_allowed)
                    hfs_allowed
  = sanitize_filename (str "a/b:c") windows_allowed
  ∧ changed (sanitize_filename (str "a/b:c") windows_allowed) hfs_allowed
    = false.
Proof.
  apply (windows_safe_name_is_safe_everywhere "HFS+" hfs_allowed (str "a/b:c")).
  vm_compute. reflexivity.
Defined.

(** X6.  Two different names collide only if the sanitizer changes one of
    them, and only if they have the same length: names that are legal as
    they stand never collide. *)
Theorem collision_needs_a_substitution name1 name2 allowed :
  name1 ≠ name2 →
  sanitize_filename name1 allowed = sanitize_filename name2 allowed →
  length name1 = length name2
  ∧ (changed name1 allowed = true ∨ changed name2 allowed = true).
Proof.
  intros Hne Hsame. split.
  - apply (f_equal length) in Hsame.
    by rewrite !sanitize_filename_map, !length_map in Hsame.
  - destruct (changed name1 allowed) eqn:H1; [by left|].
    destruct (changed name2 allowed) eqn:H2; [by right|].
    destruct Hne.
    rewrite <- (sanitize_all_legal name1 allowed),
            <- (sanitize_all_legal name2 allowed);
      [done|by apply unchanged_all_legal..].
Qed.

Lemma collision_needs_a_substitution_witness :
  length (str "a:b.txt") = length (str "a_b.txt")
  ∧ (changed (str "a:b.txt") windows_allowed = true
     ∨ changed (str "a_b.txt") windows_allowed = true).
Proof.
  apply (collision_needs_a_substitution (str "a:b.txt") (str "a_b.txt")
                                        windows_allowed).
  - vm_compute. discriminate.
  - vm_compute. reflexivity.
Defined.

End SanitizerFacts.

(** * Further properties of the executor *)

Section Accounting.
Context {World : Type} `{OS World}.
Implicit Types (s : state World) (evs : list event).

(** A step that logs [evs] and moves the counters by what [evs] shows keeps
    the counters and the log in agreement. *)
Lemma consistent_step s s' evs :
  log s' = log s ++ evs →
  transferred_files s' = transferred_files s + count is_transfer_call evs →
  count is_transfer_call evs = count is_progress evs + count is_failure evs →
  transferred_bytes s' = transferred_bytes s + total advance evs →
  total_files s' + transferred_files s'
  = total_files s + transferred_files s + count is_stat_call evs →
  (count failed_call evs = 0 →
   total_bytes s' + transferred_bytes s'
   = total_bytes s + transferred_bytes s + total stat_size evs) →
  consistent s → consistent s'.
Proof.
  intros Hlog Htf Hcalls Htb Hstat Hexact
    (Ctf & Ccalls & Cstat & Ctb & _ & _ & _ & Cexact).
  unfold consistent, accounted.
  change (stat_sum (log s')) with (total stat_size (log s')).
  change (stat_sum (log s)) with (total stat_size (log s)) in Cexact.
  rewrite Hlog, !count_app, !total_app.
  repeat split; lia.
Qed.

Lemma consistent_quiet e s : quiet e → consistent s → consistent (emit e s).
Proof.
  intros Hq.
  apply (consistent_step s (emit e s) [e]); try done;
    destruct e as [[]| | | | | |]; cbn in Hq |- *; try done; lia.
Qed.

Lemma consistent_mkdir (p : path) r (w : World) s :
  consistent s → consistent (emit (CallMkdir p r) (set_world w s)).
Proof.
  apply (consistent_step s (emit (CallMkdir p r) (set_world w s))
           [CallMkdir p r]); cbn; try done; lia.
Qed.

Lemma consistent_scan (root : path) s (fname : pystr) :
  consistent s → consistent (scan_file root s fname).
Proof.
  rewrite scan_file_eq. cbn zeta.
  set (e := CallStat (path_join root fname) _).
  apply (consistent_step s _ [e]); cbn; try done; try lia.
  intros _. destruct (stat_st_size _ _); cbn; lia.
Qed.

(** After a file the counters agree with the log again; where an exception
    leaves the body of the loop, they are ahead of it by one at most. *)
Lemma consistent_file operation dest_allowed (root dest_subdir : path) s
    (fname : pystr) :
  consistent s →
  match transfer_file operation dest_allowed root dest_subdir s fname with
  | (None, s') => consistent s'
  | (Some _, s') => accounted s'
  end.
Proof.
  intros Hs.
  pose proof (transfer_file_cases operation dest_allowed root dest_subdir
                s fname) as Hc.
  cbn zeta in Hc.
  destruct Hc as [(e & _ & _ & Hrs)|[(Hres & Hrs)|[(e & Hres & Hrs)
                 |(e & e' & Hres & _ & Hrs)]]];
    rewrite Hrs.
  - destruct Hs as (Ctf & Ccalls & Cstat & Ctb & _ & _ & _ & Cexact).
    unfold accounted.
    cbn [log total_files total_bytes transferred_files transferred_bytes
         snd count_transferred_file].
    repeat split; try done; lia.
  - revert Hs. apply consistent_step with
      (evs := file_events operation dest_allowed root dest_subdir
                (transferred_files s + 1) (total_files s) fname
                (stat_st_size (path_join root fname) (world s)) None);
      try done; unfold file_events; cbn;
      rewrite ?count_app, ?total_app;
      destruct (decide _), operation, (stat_st_size _ _); cbn;
      try done; lia.
  - revert Hs. apply consistent_step with
      (evs := file_events operation dest_allowed root dest_subdir
                (transferred_files s + 1) (total_files s) fname
                (stat_st_size (path_join root fname) (world s)) (Some e));
      try done; unfold file_events; cbn;
      rewrite ?count_app, ?total_app;
      destruct (decide _), operation, (stat_st_size _ _); cbn;
      try done; lia.
  - destruct Hs as (Ctf & Ccalls & Cstat & Ctb & _ & _ & _ & Cexact).
    unfold accounted. cbn [log total_files total_bytes transferred_files
                           transferred_bytes snd].
    unfold unreported_events. rewrite !count_app, !total_app.
    destruct (decide _), operation; cbn; repeat split; lia.
Qed.

Lemma main_consistent (a : answers) (w : World) :
  match main a w with
  | (Uncaught _, s') => accounted s'
  | (_, s') => consistent s'
  end.
Proof.
  apply (main_step consistent accounted).
  - by intros s (_ & _ & _ & Hacc).
  - apply consistent_quiet.
  - intros p s. apply consistent_mkdir.
  - apply consistent_scan.
  - intros operation dest_allowed root dest_subdir s fname _.
    apply consistent_file.
  - unfold consistent, accounted. cbn. repeat split; lia.
Qed.

Lemma main_accounting (a : answers) (w : World) : accounted (main a w).2.
Proof.
  pose proof (main_consistent a w) as Hc.
  destruct (main a w) as [[| |] s']; cbn [snd]; try done; apply Hc.
Qed.

(** X7.  [transferred_files] counts attempts.  However the run ends, it is
    the number of calls to [shutil.copy2] and [shutil.move], or that number
    and one; these calls are as many as the advances of the progress bar
    and the failure notices together, or one more; and the [stat] calls
    are as many as the files counted by the two passes, or one fewer.
    When [main] returns or exits, the three pairs are equal. *)
Theorem transferred_files_counts_attempts (a : answers) (w : World) :
  let s := (main a w).2 in
  (count is_transfer_call (log s) ≤ transferred_files s
   ∧ transferred_files s ≤ count is_transfer_call (log s) + 1)
  ∧ (count is_progress (log s) + count is_failure (log s)
     ≤ count is_transfer_call (log s)
     ∧ count is_transfer_call (log s)
       ≤ count is_progress (log s) + count is_failure (log s) + 1)
  ∧ (count is_stat_call (log s) ≤ total_files s + transferred_files s
     ∧ total_files s + transferred_files s ≤ count is_stat_call (log s) + 1)
  ∧ ((∀ e, (main a w).1 ≠ Uncaught e) →
     transferred_files s = count is_transfer_call (log s)
     ∧ count is_transfer_call (log s)
       = count is_progress (log s) + count is_failure (log s)
     ∧ count is_stat_call (log s) = total_files s + transferred_files s).
Proof.
  cbn zeta.
  destruct (main_accounting a w) as (_ & Htf & Hcalls & Hstat & _).
  split; [done|]. split; [done|]. split; [done|].
  intros Hend. pose proof (main_consistent a w) as Hc.
  destruct (main a w) as [[| |e] s']; cbn [fst snd] in *.
  - by destruct Hc as (? & ? & ? & _).
  - by destruct Hc as (? & ? & ? & _).
  - by destruct (Hend e).
Qed.

(** X8.  In every run, [transferred_bytes] is the sum of the advances given
    to the progress bar. *)
Theorem progress_bar_matches_transferred_bytes (a : answers) (w : World) :
  transferred_bytes (main a w).2 = total advance (log (main a w).2).
Proof. by destruct (main_accounting a w) as (Htb & _). Qed.

(** X9.  A run in which no transfer call raised accounts for every byte it
    read, however it ends: the bytes discovered and the bytes transferred
    together are the sum of the sizes returned by all its [stat] calls. *)
Theorem bytes_exact_without_failure (a : answers) (w : World) :
  count failed_call (log (main a w).2) = 0 →
  total_bytes (main a w).2 + transferred_bytes (main a w).2
  = stat_sum (log (main a w).2).
Proof. by destruct (main_accounting a w) as (_ & _ & _ & _ & Hexact). Qed.

End Accounting.

(** Takes the first notice of the goal both ways: printed, or refused with
    an exception named after [e]. *)
Ltac step_print e He :=
  match goal with
  | |- context [print ?m ?s] =>
      let Hp := fresh "Hp" in
      destruct (print_cases m s) as [[He Hp]|(e & He & Hp)];
      rewrite Hp; clear Hp; cbn [raising and_then fst snd]
  end.

Section Primitives.
Context {World : Type} `{OS World}.
Implicit Types (s : state World) (evs : list event) (operation : op).

(** The five ways through lines 132-138. *)
Lemma ensure_dest_root_cases (dest_root : path) s :
  let rs := ensure_dest_root dest_root s in
  let mk := path_mkdir dest_root (world s) in
  let made := emit (CallMkdir dest_root mk.2) (set_world mk.1 s) in
  let tried e :=
    mk.2 = Some e
    ∨ (mk.2 = None
       ∧ console_print (CreatedDestination dest_root) = Some e) in
  (∃ e, path_exists dest_root (world s) = inr e
        ∧ rs = (Some (Uncaught e), s))
  ∨ (path_exists dest_root (world s) = inl true ∧ rs = (None, s))
  ∨ (path_exists dest_root (world s) = inl false
     ∧ ((∃ e, tried e
              ∧ console_print (FailedToCreate dest_root e) = None
              ∧ rs = (Some (SysExit 1),
                      emit (Print (FailedToCreate dest_root e)) made))
        ∨ (∃ e e', tried e
                   ∧ console_print (FailedToCreate dest_root e) = Some e'
                   ∧ rs = (Some (Uncaught e'), made))
        ∨ (mk.2 = None
           ∧ console_print (CreatedDestination dest_root) = None
           ∧ rs = (None, emit (Print (CreatedDestination dest_root)) made)))).
Proof.
  cbn zeta. unfold ensure_dest_root.
  destruct (path_exists dest_root (world s)) as [[|]|e].
  - right. left. by split.
  - right. right. split; [done|].
    destruct (path_mkdir dest_root (world s)) as [w' [e|]]; cbn [fst snd].
    + step_print e' He'.
      * left. exists e. split; [by left|]. by split.
      * right. left. exists e, e'. split; [by left|]. by split.
    + step_print e He.
      * right. right. by repeat split.
      * step_print e' He'.
        -- left. exists e. split; [by right|]. by split.
        -- right. left. exists e, e'. split; [by right|]. by split.
  - left. by exists e.
Qed.

Lemma ensure_dest_root_spec (dest_root : path) s :
  let rs := ensure_dest_root dest_root s in
  ∃ evs,
    log rs.2 = log s ++ evs
    ∧ Forall (λ e, ¬ is_transfer e
                   ∧ ∀ p r, e = CallMkdir p r → p = dest_root) evs
    ∧ (world rs.2 = world s
       ∨ world rs.2 = (path_mkdir dest_root (world s)).1)
    ∧ total_files rs.2 = total_files s
    ∧ transferred_files rs.2 = transferred_files s
    ∧ transferred_bytes rs.2 = transferred_bytes s
    ∧ rs.1 ≠ Some Returned.
Proof.
  assert (∀ m, ¬ is_transfer (Print m)
               ∧ ∀ p r, Print m = CallMkdir p r → p = dest_root) as Hprint
    by (intros m; split; [by intros []|done]).
  assert (∀ r, ¬ is_transfer (CallMkdir dest_root r)
               ∧ ∀ p r', CallMkdir dest_root r = CallMkdir p r'
                         → p = dest_root) as Hmkdir
    by (intros r; split; [by intros []|by intros p r' [= <- _]]).
  cbn zeta.
  pose proof (ensure_dest_root_cases dest_root s) as Hc. cbn zeta in Hc.
  destruct Hc as [(e & _ & ->)|[(_ & ->)|(_ & [(e & _ & _ & ->)
                 |[(e & e' & _ & _ & ->)|(_ & _ & ->)]])]];
    cbn [fst snd log world total_files transferred_files transferred_bytes
         emit set_world].
  - exists []. rewrite app_nil_r. split; [done|]. split; [constructor|].
    repeat split; try done. by left.
  - exists []. rewrite app_nil_r. split; [done|]. split; [constructor|].
    repeat split; try done. by left.
  - eexists [_; _]. rewrite <- app_assoc. split; [reflexivity|].
    split.
    { repeat first [apply Forall_nil_2
                   |apply Forall_cons_2;
                    [first [apply Hprint|apply Hmkdir]|]]. }
    repeat split; try done. by right.
  - eexists [_]. split; [reflexivity|].
    split.
    { repeat first [apply Forall_nil_2
                   |apply Forall_cons_2;
                    [first [apply Hprint|apply Hmkdir]|]]. }
    repeat split; try done. by right.
  - eexists [_; _]. rewrite <- app_assoc. split; [reflexivity|].
    split.
    { repeat first [apply Forall_nil_2
                   |apply Forall_cons_2;
                    [first [apply Hprint|apply Hmkdir]|]]. }
    repeat split; try done. by right.
Qed.

Lemma effective_operation_spec operation (source_root : path) s :
  let r := effective_operation operation source_root s in
  ∃ evs,
    log r.2.2 = log s ++ evs
    ∧ Forall quiet evs
    ∧ world r.2.2 = world s
    ∧ total_files r.2.2 = total_files s
    ∧ transferred_files r.2.2 = transferred_files s
    ∧ transferred_bytes r.2.2 = transferred_bytes s.
Proof.
  cbn zeta. unfold effective_operation.
  destruct operation; [|destruct (os_access_W_OK source_root (world s))].
  1,2: exists []; cbn; by rewrite app_nil_r.
  cbn [snd]. step_print e He.
  - eexists [_]. split; [reflexivity|]. by repeat constructor.
  - exists []. cbn. by rewrite app_nil_r.
Qed.

Lemma quiet_not_transfer e : quiet e → ¬ is_transfer e.
Proof. destruct e; cbn; tauto. Qed.

Lemma not_transfer_not_foreign operation e :
  ¬ is_transfer e → ¬ foreign operation e.
Proof. intros Hne Hf. apply Hne. destruct operation, e; cbn in *; tauto. Qed.

Lemma file_events_not_foreign operation dest_allowed (root dest_subdir : path)
    (n total : N) (fname : pystr) size res :
  Forall (λ e, ¬ foreign operation e)
         (file_events operation dest_allowed root dest_subdir n total fname
                      size res).
Proof.
  unfold file_events. apply Forall_app. split.
  - destruct (decide _); repeat constructor. destruct operation; cbn; tauto.
  - repeat constructor; destruct operation, res; cbn; tauto.
Qed.

Lemma execute_single_primitive (a : answers) operation dest_allowed s :
  Forall (λ e, ¬ foreign operation e) (log s) →
  Forall (λ e, ¬ foreign operation e)
         (log (execute a operation dest_allowed s).2).
Proof.
  apply (execute_invariant
           (λ s, Forall (λ e, ¬ foreign operation e) (log s))).
  - intros e s0 He Hs. cbn. apply Forall_app. split; [done|].
    repeat constructor. by apply not_transfer_not_foreign, quiet_not_transfer.
  - intros p s0 Hs. cbn. apply Forall_app. split; [done|].
    repeat constructor. destruct operation; cbn; tauto.
  - intros root s0 fname Hs. rewrite scan_file_eq. cbn.
    apply Forall_app. split; [done|]. repeat constructor.
    destruct operation; cbn; tauto.
  - intros root dest_subdir s0 fname _ Hs.
    destruct (transfer_file_log operation dest_allowed root dest_subdir
                s0 fname) as (evs & rest & Hall & -> & _).
    apply Forall_app. split; [done|].
    pose proof (file_events_not_foreign operation dest_allowed root
                  dest_subdir (transferred_files s0 + 1) (total_files s0)
                  fname (stat_st_size (path_join root fname) (world s0))
                  (shutil_transfer operation (path_join root fname)
                     (path_join dest_subdir
                        (sanitize_filename fname dest_allowed))
                     (world s0)).2) as Hnf.
    rewrite Hall in Hnf. by apply Forall_app in Hnf as [Hnf _].
Qed.

(** Up to the choice of the operation, [main] hands no file to a transfer
    call; from there on it uses the call of the operation chosen. *)
Lemma main_single_primitive (a : answers) (w : World) :
  Forall (λ e, ¬ is_transfer e) (log (main a w).2)
  ∨ ∃ chosen,
      Forall (λ e, ¬ foreign chosen e) (log (main a w).2)
      ∧ (chosen = MOVE → operation a = MOVE).
Proof.
  unfold main. step_print e0 He0; [|left; by constructor].
  set (s0 := emit (Print Title) (initial w)).
  assert (Forall (λ e, ¬ is_transfer e) (log s0)) as H0
    by (repeat constructor; by intros []).
  clearbody s0.
  destruct (FILESYSTEMS !! source_fs a); [|by left].
  destruct (ensure_dest_root_spec (dest_root a) s0)
    as (ev1 & Hlog1 & Hnone1 & _).
  assert (Forall (λ e, ¬ is_transfer e)
                 (log (ensure_dest_root (dest_root a) s0).2)) as H1.
  { rewrite Hlog1. apply Forall_app. split; [done|].
    eapply Forall_impl; [exact Hnone1|]. by intros e [? _]. }
  destruct (ensure_dest_root (dest_root a) s0) as [[o|] s1]; cbn [snd] in *.
  { by left. }
  unfold after_dest_root.
  destruct (FILESYSTEMS !! dest_fs a) as [dest_allowed|]; [|by left].
  destruct (effective_operation_spec (operation a) (source_root a) s1)
    as (ev2 & Hlog2 & Hquiet2 & _).
  assert (Forall (λ e, ¬ is_transfer e)
            (log (effective_operation (operation a) (source_root a) s1).2.2))
    as H2.
  { rewrite Hlog2. apply Forall_app. split; [done|].
    eapply Forall_impl; [exact Hquiet2|]. apply quiet_not_transfer. }
  assert ((effective_operation (operation a) (source_root a) s1).1 = MOVE
          → operation a = MOVE) as Hop.
  { unfold effective_operation. destruct (operation a); [done|].
    by destruct (os_access_W_OK _ _). }
  destruct (effective_operation (operation a) (source_root a) s1)
    as [chosen [[e|] s2]]; cbn [fst snd raising] in *.
  { by left. }
  right. exists chosen. split; [|done].
  apply execute_single_primitive.
  eapply Forall_impl; [exact H2|]. intros e. apply not_transfer_not_foreign.
Qed.

(** X10.  A run uses one transfer function throughout: its log holds calls
    to [shutil.copy2] or calls to [shutil.move], never both. *)
Theorem one_transfer_function_per_run (a : answers) (w : World) :
  Forall (λ e, ¬ is_move e) (log (main a w).2)
  ∨ Forall (λ e, ¬ is_copy e) (log (main a w).2).
Proof.
  destruct (main_single_primitive a w) as [Hnone|([|] & Hop & _)].
  - left. eapply Forall_impl; [exact Hnone|].
    intros e. apply (not_transfer_not_foreign COPY).
  - by left.
  - by right.
Qed.

Lemma removelast_path_join (p : path) (name : pystr) :
  removelast (path_join p name) = p.
Proof. apply removelast_last. Qed.

Lemma mirrored_snoc (l : list event) (e : event) :
  mirrored l →
  match e with
  | CallCopy2 _ dst _ | CallMove _ dst _ => CallMkdir (removelast dst) None ∈ l
  | _ => True
  end →
  mirrored (l ++ [e]).
Proof.
  intros Hl He pre e' post Heq.
  destruct post as [|x post _] using rev_ind.
  - apply app_inj_tail in Heq as [<- <-]. exact He.
  - change (pre ++ e' :: post ++ [x]) with (pre ++ (e' :: post) ++ [x]) in Heq.
    rewrite app_assoc in Heq. apply app_inj_tail in Heq as [Heq _].
    by apply (Hl pre e' post).
Qed.

Lemma mirrored_prefix (l1 l2 : list event) : mirrored (l1 ++ l2) → mirrored l1.
Proof.
  intros Hl pre e post ->. apply (Hl pre e (post ++ l2)).
  by rewrite <- app_assoc.
Qed.

Lemma main_mirrored (a : answers) (w : World) : mirrored (log (main a w).2).
Proof.
  apply (main_invariant (λ s, mirrored (log s))).
  - intros e s He Hs. cbn. apply mirrored_snoc; [done|].
    by destruct e as [[]| | | | | |].
  - intros p s Hs. cbn. by apply mirrored_snoc.
  - intros root s fname Hs. rewrite scan_file_eq. cbn.
    by apply mirrored_snoc.
  - intros operation dest_allowed root dest_subdir s fname Hmk Hs.
    destruct (transfer_file_log operation dest_allowed root dest_subdir
                s fname) as (evs & rest & Hall & -> & _).
    apply (mirrored_prefix _ rest). rewrite <- app_assoc, <- Hall.
    unfold file_events.
    set (rename := if decide _ then _ else _).
    assert (mirrored (log s ++ rename)) as Hr.
    { subst rename. destruct (decide _); [|by rewrite app_nil_r].
      by apply mirrored_snoc. }
    change [?x; ?y; ?z] with ([x] ++ [y] ++ [z]). rewrite !app_assoc.
    apply mirrored_snoc; [apply mirrored_snoc; [by apply mirrored_snoc|]|].
    + destruct operation; cbn; rewrite removelast_path_join;
        rewrite !elem_of_app; by left; left.
    + destruct (shutil_transfer _ _ _ _).2; by destruct operation.
  - intros pre e post Heq. by destruct pre.
Qed.

(** X11.  In every run, every file is written into a directory that the run
    has made sure of before: each call to [shutil.copy2] or [shutil.move] is
    preceded, in the log, by a [mkdir] of the directory of its destination
    that returned normally. *)
Theorem transfers_follow_their_mkdir (a : answers) (w : World)
    (pre post : list event) (src dst : path) (r : option exn) :
  log (main a w).2 = pre ++ CallCopy2 src dst r :: post
  ∨ log (main a w).2 = pre ++ CallMove src dst r :: post →
  CallMkdir (removelast dst) None ∈ pre.
Proof.
  intros [Heq|Heq]; by apply (main_mirrored a w _ _ _ Heq).
Qed.

End Primitives.

Section Endings.
Context {World : Type} `{OS World}.
Implicit Types (s : state World) (evs : list event) (operation : op).

Lemma refused_notice (m : notice) (e : exn) :
  markup m ≫= console_print = Some e → ∃ m', console_print m' = Some e.
Proof. destruct (markup m) as [m'|]; [|done]. intros He. by exists m'. Qed.

Lemma transfer_file_raises operation dest_allowed (root dest_subdir : path)
    s (fname : pystr) e :
  (transfer_file operation dest_allowed root dest_subdir s fname).1 = Some e →
  ∃ m, console_print m = Some e.
Proof.
  pose proof (transfer_file_cases operation dest_allowed root dest_subdir
                s fname) as Hc.
  cbn zeta in Hc.
  destruct Hc as [(e1 & _ & He1 & ->)|[(_ & ->)|[(e1 & _ & ->)
                 |(e1 & e' & _ & He' & ->)]]]; cbn [fst]; try done.
  - intros [= <-]. by eexists.
  - intros [= <-]. destruct operation; by eexists.
Qed.

Lemma transfer_files_raises operation dest_allowed (root dest_subdir : path)
    (files : list pystr) s e :
  (transfer_files operation dest_allowed root dest_subdir files s).1 = Some e →
  ∃ m, console_print m = Some e.
Proof.
  revert s. induction files as [|fname files IH]; intros s; [done|].
  cbn [transfer_files].
  pose proof (transfer_file_raises operation dest_allowed root dest_subdir
                s fname) as Hf.
  destruct (transfer_file operation dest_allowed root dest_subdir s fname)
    as [[e1|] s1]; cbn [and_then fst] in *.
  - intros [= <-]. by apply Hf.
  - apply IH.
Qed.

Lemma transfer_dir_raises operation dest_allowed (source_root dest_root : path)
    (root : path) (files : list pystr) s e :
  let rs := transfer_dir operation dest_allowed source_root dest_root
                         root files s in
  rs.1 = Some e →
  e = ValueError
  ∨ (∃ p, last (log rs.2) = Some (CallMkdir p (Some e)))
  ∨ (∃ m, console_print m = Some e).
Proof.
  unfold transfer_dir.
  destruct (relative_to root source_root) as [rel|]; cbn zeta.
  2:{ intros [= <-]. by left. }
  destruct (path_mkdir (dest_root ++ rel) (world s)) as [w [e'|]].
  - cbn. intros [= ->]. right. left. exists (dest_root ++ rel).
    apply last_snoc.
  - intros Hraise. right. right.
    by apply transfer_files_raises in Hraise.
Qed.

Lemma transfer_walk_raises operation dest_allowed (source_root dest_root : path)
    (g : walker World) s e :
  let rs := transfer_walk operation dest_allowed source_root dest_root g s in
  rs.1 = Some e →
  e = ValueError
  ∨ (∃ p, last (log rs.2) = Some (CallMkdir p (Some e)))
  ∨ (∃ m, console_print m = Some e).
Proof.
  revert s. induction g as [|root dirs files next IH]; intros s; [done|].
  cbn [transfer_walk].
  pose proof (transfer_dir_raises operation dest_allowed source_root dest_root
                root files s) as Hdir. cbn zeta in Hdir.
  destruct (transfer_dir operation dest_allowed source_root dest_root
                         root files s) as [[e'|] s1].
  - cbn. intros [= ->]. by apply Hdir.
  - apply IH.
Qed.

(** How [execute] ends, read off the last events of its log. *)
Lemma execute_end (a : answers) operation dest_allowed s :
  let rs := execute a operation dest_allowed s in
  match rs.1 with
  | Returned =>
      ∃ l, log rs.2
           = l ++ [ProgressCompleted (total_bytes rs.2);
                   Print (Done (transferred_files rs.2)
                               (transferred_bytes rs.2))]
  | SysExit code =>
      code = 0
      ∧ (last (log rs.2) = Some (Print (NoFilesFound (source_root a)))
         ∨ last (log rs.2) = Some (Print Canceled))
  | Uncaught e =>
      e = ValueError
      ∨ (∃ p, last (log rs.2) = Some (CallMkdir p (Some e)))
      ∨ (∃ m, console_print m = Some e)
  end.
Proof.
  cbn zeta. unfold execute, transfer_pass.
  step_print e1 He1; [|right; right; by apply refused_notice in He1].
  step_print e2 He2; [|right; right; by apply refused_notice in He2].
  set (s2 := discovery_pass _ _). clearbody s2.
  destruct (decide (total_files s2 = 0)) as [Hnone|Hsome].
  { step_print e3 He3; [|right; right; by apply refused_notice in He3].
    split; [done|]. left. apply last_snoc. }
  step_print e3 He3; [|right; right; by apply refused_notice in He3].
  destruct (proceed a); cbn [negb].
  2:{ step_print e4 He4; [|right; right; by apply refused_notice in He4].
      split; [done|]. right. apply last_snoc. }
  step_print e4 He4; [|right; right; by apply refused_notice in He4].
  set (s3 := emit (Print Transferring) _). clearbody s3.
  pose proof (transfer_walk_raises operation dest_allowed (source_root a)
                (dest_root a) (os_walk (source_root a) (world s3)) s3) as Hw.
  cbn zeta in Hw.
  destruct (transfer_walk operation dest_allowed (source_root a)
              (dest_root a) (os_walk (source_root a) (world s3)) s3)
    as [[e|] s4]; cbn [fst snd raising] in *.
  - by apply Hw.
  - step_print e5 He5; [|done].
    exists (log s4). cbn. by rewrite <- app_assoc.
Qed.

Lemma after_dest_root_end (a : answers) s :
  let rs := after_dest_root a s in
  match rs.1 with
  | Returned =>
      ∃ l, log rs.2
           = l ++ [ProgressCompleted (total_bytes rs.2);
                   Print (Done (transferred_files rs.2)
                               (transferred_bytes rs.2))]
  | SysExit code =>
      code = 0
      ∧ (last (log rs.2) = Some (Print (NoFilesFound (source_root a)))
         ∨ last (log rs.2) = Some (Print Canceled))
  | Uncaught e =>
      e = KeyError ∨ e = ValueError
      ∨ (∃ p, last (log rs.2) = Some (CallMkdir p (Some e)))
      ∨ (∃ m, console_print m = Some e)
  end.
Proof.
  cbn zeta. unfold after_dest_root.
  destruct (FILESYSTEMS !! dest_fs a) as [dest_allowed|]; [|by left].
  assert (∀ chosen s1,
            match (execute a chosen dest_allowed s1).1 with
            | Returned =>
                ∃ l, log (execute a chosen dest_allowed s1).2
                     = l ++ [ProgressCompleted
                               (total_bytes (execute a chosen dest_allowed
                                                     s1).2);
                             Print (Done
                               (transferred_files
                                  (execute a chosen dest_allowed s1).2)
                               (transferred_bytes
                                  (execute a chosen dest_allowed s1).2))]
            | SysExit code =>
                code = 0
                ∧ (last (log (execute a chosen dest_allowed s1).2)
                   = Some (Print (NoFilesFound (source_root a)))
                   ∨ last (log (execute a chosen dest_allowed s1).2)
                     = Some (Print Canceled))
            | Uncaught e =>
                e = KeyError ∨ e = ValueError
                ∨ (∃ p, last (log (execute a chosen dest_allowed s1).2)
                        = Some (CallMkdir p (Some e)))
                ∨ (∃ m, console_print m = Some e)
            end) as Hex.
  { intros chosen s1.
    pose proof (execute_end a chosen dest_allowed s1) as Hend.
    cbn zeta in Hend.
    destruct (execute a chosen dest_allowed s1) as [[|code|e] s2];
      cbn [fst snd] in *; tauto. }
  unfold effective_operation.
  destruct (operation a); [|destruct (os_access_W_OK _ _)];
    cbn [raising]; [apply Hex..|].
  step_print e He; [apply Hex|].
  right. right. right. by apply refused_notice in He.
Qed.


Lemma after_dest_root_exit_code (a : answers) s :
  (after_dest_root a s).1 ≠ SysExit 1.
Proof.
  pose proof (after_dest_root_end a s) as Hend.
  cbn zeta in Hend. intros Heq. rewrite Heq in Hend. by destruct Hend.
Qed.

(** X13.  [main] exits with code 1 exactly when the source profile is in the
    table, the destination root does not exist, the [try] of line 133
    raises, in [mkdir] or in the notice that follows it, and the notice of
    that failure is printed. *)
Theorem exit_code_one_iff_root_creation_fails (a : answers) (w : World) :
  (main a w).1 = SysExit 1
  ↔ is_Some (FILESYSTEMS !! source_fs a)
    ∧ path_exists (dest_root a) w = inl false
    ∧ ∃ e,
        ((path_mkdir (dest_root a) w).2 = Some e
         ∨ ((path_mkdir (dest_root a) w).2 = None
            ∧ console_print (CreatedDestination (dest_root a)) = Some e))
        ∧ console_print (FailedToCreate (dest_root a) e) = None.
Proof.
  unfold main. step_print e0 He0; [|by cbn in He0].
  destruct (FILESYSTEMS !! source_fs a) as [source_allowed|].
  2:{ split; [done|]. by intros [[? ?] _]. }
  pose proof (ensure_dest_root_cases (dest_root a)
                (emit (Print Title) (initial w))) as Hc.
  cbn zeta in Hc. cbn [world emit initial] in Hc.
  destruct Hc as [(e & Hex & ->)|[(Hex & ->)|(Hex & [(e & Htry & Hpr & ->)
                 |[(e & e' & Htry & Hpr & ->)|(Hmk & Hpr & ->)]])]];
    cbn [fst snd]; rewrite Hex.
  - split; [done|]. by intros (_ & ? & _).
  - split; [|by intros (_ & ? & _)].
    intros Heq. by apply after_dest_root_exit_code in Heq.
  - split; [|done]. intros _. split; [done|]. split; [done|]. by exists e.
  - split; [done|]. intros (_ & _ & e1 & Htry1 & Hpr1).
    assert (e1 = e) as -> by (destruct Htry as [?|[? ?]],
                                Htry1 as [?|[? ?]]; congruence).
    congruence.
  - split.
    + intros Heq. by apply after_dest_root_exit_code in Heq.
    + intros (_ & _ & e1 & [?|[_ ?]] & _); congruence.
Qed.



Lemma idle_emit (dest_root : path) e s :
  ¬ is_transfer e →
  (∀ p r, e = CallMkdir p r → p = dest_root) →
  idle dest_root s → idle dest_root (emit e s).
Proof.
  intros Hne Hmk (Hall & Htf & Htb). repeat split; try done.
  cbn. apply Forall_app. split; [done|]. by repeat constructor.
Qed.

Lemma idle_print (dest_root : path) m s :
  idle dest_root s → idle dest_root (print m s).2.
Proof.
  intros Hs. destruct (print_cases m s) as [[_ ->]|(e & _ & ->)]; [|done].
  apply idle_emit; [by intros []|done|done].
Qed.

Lemma idle_scan_walk (dest_root : path) (g : walker World) s :
  idle dest_root s → idle dest_root (scan_walk g s).
Proof.
  intros (Hall & Htf & Htb).
  destruct (scan_walk_spec g s) as (evs & Hlog & Hstat & _ & _ & _ & Hn & Hb).
  repeat split; [|congruence..].
  rewrite Hlog. apply Forall_app. split; [done|].
  eapply Forall_impl; [exact Hstat|].
  intros e (p & r & ->). split; [by intros []|done].
Qed.

Lemma execute_declined (a : answers) operation dest_allowed s :
  proceed a = false →
  idle (dest_root a) s →
  (execute a operation dest_allowed s).1 ≠ Returned
  ∧ idle (dest_root a) (execute a operation dest_allowed s).2.
Proof.
  intros Hno Hs. unfold execute, discovery_pass. rewrite Hno. cbn [negb].
  pose proof (idle_print (dest_root a)
                (Summary (source_root a) (source_fs a) (dest_root a)
                         (dest_fs a) operation) s Hs) as H1.
  destruct (print _ s) as [[e1|] s1]; cbn [raising snd] in *; [done|].
  pose proof (idle_print (dest_root a) Scanning s1 H1) as H2.
  destruct (print _ s1) as [[e2|] s2]; cbn [raising snd] in *; [done|].
  pose proof (idle_scan_walk (dest_root a)
                (os_walk (source_root a) (world s2)) s2 H2) as H3.
  set (s3 := scan_walk _ s2) in *. clearbody s3.
  destruct (decide (total_files s3 = 0)) as [Hnone|Hsome].
  - pose proof (idle_print (dest_root a) (NoFilesFound (source_root a))
                  s3 H3) as H4.
    by destruct (print _ s3) as [[e4|] s4].
  - pose proof (idle_print (dest_root a)
                  (Found (total_files s3) (total_bytes s3)) s3 H3) as H4.
    destruct (print _ s3) as [[e4|] s4]; cbn [raising snd] in *; [done|].
    pose proof (idle_print (dest_root a) Canceled s4 H4) as H5.
    by destruct (print _ s4) as [[e5|] s5].
Qed.

(** X15.  When the user declines, [main] does not return normally, no file
    is handed to a transfer call, the transfer counters stay at zero, and
    the only directory the run may have created is the destination root. *)
Theorem declined_run_transfers_nothing (a : answers) (w : World) :
  proceed a = false →
  (main a w).1 ≠ Returned
  ∧ Forall (λ e, ¬ is_transfer e) (log (main a w).2)
  ∧ transferred_files (main a w).2 = 0
  ∧ transferred_bytes (main a w).2 = 0
  ∧ ∀ p r, CallMkdir p r ∈ log (main a w).2 → p = dest_root a.
Proof.
  intros Hno.
  assert ((main a w).1 ≠ Returned ∧ idle (dest_root a) (main a w).2)
    as [Hend (Hall & Htf & Htb)].
  { unfold main. step_print e0 He0; [|by cbn in He0].
    set (s0 := emit (Print Title) (initial w)).
    assert (idle (dest_root a) s0) as H0.
    { apply idle_emit; [by intros []|done|]. by repeat split. }
    clearbody s0.
    destruct (FILESYSTEMS !! source_fs a); [|done].
    destruct (ensure_dest_root_spec (dest_root a) s0)
      as (ev1 & Hlog1 & Hev1 & _ & _ & Hn1 & Hb1 & Ho1).
    assert (idle (dest_root a) (ensure_dest_root (dest_root a) s0).2) as H1.
    { destruct H0 as (Hall0 & Hn0 & Hb0).
      repeat split; [|congruence..].
      rewrite Hlog1. by apply Forall_app. }
    destruct (ensure_dest_root (dest_root a) s0) as [[o|] s1];
      cbn [fst snd] in *.
    { split; [congruence|done]. }
    unfold after_dest_root.
    destruct (FILESYSTEMS !! dest_fs a) as [dest_allowed|]; [|done].
    unfold effective_operation.
    destruct (operation a); [|destruct (os_access_W_OK _ _)];
      cbn [raising]; [by apply execute_declined..|].
    pose proof (idle_print (dest_root a) (SwitchingToCopy (source_root a))
                  s1 H1) as H2.
    destruct (print _ s1) as [[e2|] s2]; cbn [raising snd] in *; [done|].
    by apply execute_declined. }
  repeat split; try done.
  - eapply Forall_impl; [exact Hall|]. by intros e [? _].
  - intros p r Hin. rewrite Forall_forall in Hall.
    by apply (proj2 (Hall _ Hin) p r).
Qed.

End Endings.

Section Modes.
Context {World : Type} `{OS World}.
Implicit Types (s : state World) (evs : list event) (operation : op).

Lemma execute_log (a : answers) operation dest_allowed s :
  ∃ evs, log (execute a operation dest_allowed s).2 = log s ++ evs.
Proof.
  apply (execute_invariant (λ s', ∃ evs, log s' = log s ++ evs)).
  - intros e s' _ [evs Hlog]. exists (evs ++ [e]). cbn.
    by rewrite Hlog, app_assoc.
  - intros p s' [evs Hlog]. eexists (evs ++ [_]). cbn.
    by rewrite Hlog, app_assoc.
  - intros root s' fname [evs Hlog]. rewrite scan_file_eq.
    eexists (evs ++ [_]). cbn. by rewrite Hlog, app_assoc.
  - intros root dest_subdir s' fname _ [evs Hlog].
    destruct (transfer_file_log operation dest_allowed root dest_subdir
                s' fname) as (evs1 & rest & _ & Hlog1 & _).
    exists (evs ++ evs1). by rewrite Hlog1, Hlog, app_assoc.
  - exists []. by rewrite app_nil_r.
Qed.

Section CopyKeeps.
(** [P] is a property of the filesystem that neither [mkdir] nor
    [shutil.copy2] destroys. *)
Variable P : World → Prop.
Hypothesis mkdir_keeps : ∀ p w, P w → P (path_mkdir p w).1.
Hypothesis copy2_keeps : ∀ src dst w, P w → P (shutil_copy2 src dst w).1.

Lemma ensure_dest_root_keeps (dest_root : path) s :
  P (world s) → P (world (ensure_dest_root dest_root s).2).
Proof.
  intros Hs.
  destruct (ensure_dest_root_spec dest_root s)
    as (_ & _ & _ & [->| ->] & _); [done|].
  by apply mkdir_keeps.
Qed.

Lemma execute_copy_keeps (a : answers) dest_allowed s :
  P (world s) → P (world (execute a COPY dest_allowed s).2).
Proof. by apply (execute_keeps P COPY). Qed.

(** X16.  A run asked to COPY never calls [shutil.move], and what [mkdir]
    and [shutil.copy2] leave in place (the presence of each source file, for
    one) is in place when the run ends, however it ends. *)
Theorem copy_never_moves (a : answers) (w : World) :
  operation a = COPY →
  P w →
  Forall (λ e, ¬ is_move e) (log (main a w).2) ∧ P (world (main a w).2).
Proof.
  intros Hop Hw. split.
  - destruct (main_single_primitive a w) as [Hnone|(chosen & Hall & Hmove)].
    + eapply Forall_impl; [exact Hnone|].
      intros e. apply (not_transfer_not_foreign COPY).
    + destruct chosen; [done|]. rewrite Hop in Hmove.
      by specialize (Hmove eq_refl).
  - unfold main. step_print e0 He0; [|done].
    destruct (FILESYSTEMS !! source_fs a); [|done].
    pose proof (ensure_dest_root_keeps (dest_root a)
                  (emit (Print Title) (initial w)) Hw) as H1.
    destruct (ensure_dest_root (dest_root a) _) as [[o|] s1]; [done|].
    cbn [snd] in H1. unfold after_dest_root.
    destruct (FILESYSTEMS !! dest_fs a) as [dest_allowed|]; [|done].
    unfold effective_operation. rewrite Hop. cbn [raising].
    by apply execute_copy_keeps.
Qed.

(** X22.  In a run that gets past the creation of the destination root
    with MOVE chosen and a source root that is not writable:
    [shutil.move], the one call of [main] that removes a source file, is
    never made, and whatever [mkdir] and [shutil.copy2] leave in place, the
    presence of the source files for one, is still there when the run
    ends.  When [console.print] accepts the notice of the switch to COPY,
    the notice is logged before any file is handed to a transfer call;
    when it raises, the exception ends [main] there, the notice not
    printed. *)
Theorem unwritable_source_is_copied (a : answers) (w : World)
    (source_allowed dest_allowed : gset pychar) (s0 : state World) :
  FILESYSTEMS !! source_fs a = Some source_allowed →
  FILESYSTEMS !! dest_fs a = Some dest_allowed →
  ensure_dest_root (dest_root a) (emit (Print Title) (initial w))
  = (None, s0) →
  operation a = MOVE →
  os_access_W_OK (source_root a) (world s0) = false →
  P w →
  Forall (λ e, ¬ is_move e) (log (main a w).2)
  ∧ P (world (main a w).2)
  ∧ Forall (λ e, ¬ is_transfer e) (log s0)
  ∧ match console_print (SwitchingToCopy (source_root a)) with
    | None =>
        ∃ after,
          log (main a w).2
          = log s0 ++ Print (SwitchingToCopy (source_root a)) :: after
    | Some e => main a w = (Uncaught e, s0)
    end.
Proof.
  intros Hsrc Hdst Hroot Hop Hro Hw.
  assert (Forall (λ e, ¬ is_transfer e) (log s0)) as Hnone.
  { destruct (ensure_dest_root_spec (dest_root a)
                (emit (Print Title) (initial w)))
      as (ev & Hlog & Hev & _).
    rewrite Hroot in Hlog. cbn [snd] in Hlog. rewrite Hlog.
    apply Forall_app. split; [repeat constructor; by intros []|].
    eapply Forall_impl; [exact Hev|]. by intros e [? _]. }
  assert (P (world s0)) as H0.
  { pose proof (ensure_dest_root_keeps (dest_root a)
                  (emit (Print Title) (initial w)) Hw) as Hk.
    by rewrite Hroot in Hk. }
  assert (main a w
          = raising (print (SwitchingToCopy (source_root a)) s0)
                    (execute a COPY dest_allowed)) as ->.
  { unfold main. step_print e0 He0; [|done].
    rewrite Hsrc, Hroot. unfold after_dest_root. rewrite Hdst.
    unfold effective_operation. by rewrite Hop, Hro. }
  unfold print.
  change (markup (SwitchingToCopy (source_root a)) ≫= console_print)
    with (console_print (SwitchingToCopy (source_root a))).
  destruct (console_print (SwitchingToCopy (source_root a))) as [e|];
    cbn [raising fst snd].
  { repeat split; try done.
    eapply Forall_impl; [exact Hnone|].
    intros e'. apply (not_transfer_not_foreign COPY). }
  set (s1 := emit (Print (SwitchingToCopy (source_root a))) s0).
  split; [|split; [|split; [done|]]].
  - apply (execute_single_primitive a COPY). subst s1. cbn.
    apply Forall_app. split.
    + eapply Forall_impl; [exact Hnone|].
      intros e'. apply (not_transfer_not_foreign COPY).
    + repeat constructor. by intros [].
  - by apply execute_copy_keeps.
  - destruct (execute_log a COPY dest_allowed s1) as [after Hlog].
    exists after. rewrite Hlog. subst s1. cbn. by rewrite <- app_assoc.
Qed.
End CopyKeeps.

Lemma renaming_in_file_events operation dest_allowed (root dest_subdir : path)
    (n total : N) (fname : pystr) size res (f safe : pystr) :
  Print (Renaming f safe)
  ∈ file_events operation dest_allowed root dest_subdir n total fname size res
  ↔ f = fname ∧ safe = sanitize_filename fname dest_allowed ∧ safe ≠ f.
Proof.
  unfold file_events. rewrite elem_of_app. split.
  - intros [Hin|Hin].
    + destruct (decide _) as [Hne|]; [|by apply elem_of_nil in Hin].
      apply list_elem_of_singleton in Hin as [= -> ->]. by repeat split.
    + repeat (apply elem_of_cons in Hin as [Hin|Hin];
              [by destruct operation, res|]).
      by apply elem_of_nil in Hin.
  - intros (-> & -> & Hne). left. rewrite decide_True by done.
    by apply list_elem_of_singleton.
Qed.

(** X17.  In the files of a directory, a rename notice is printed only for
    a file whose sanitized name differs from its name, and it shows that
    name and its sanitized form; when the loop over the files runs to its
    end, every such file has its notice. *)
Theorem rename_notices_are_exact operation dest_allowed
    (root dest_subdir : path) (files : list pystr) s :
  let rs := transfer_files operation dest_allowed root dest_subdir files s in
  ∃ evs,
    log rs.2 = log s ++ evs
    ∧ (∀ f safe : pystr,
         Print (Renaming f safe) ∈ evs →
         f ∈ files ∧ safe = sanitize_filename f dest_allowed ∧ safe ≠ f)
    ∧ (rs.1 = None →
       ∀ f : pystr,
         f ∈ files →
         sanitize_filename f dest_allowed ≠ f →
         Print (Renaming f (sanitize_filename f dest_allowed)) ∈ evs).
Proof.
  revert s. induction files as [|fname files IH]; intros s; cbn zeta.
  - exists []. split; [by rewrite app_nil_r|]. split.
    + by intros f safe ?%elem_of_nil.
    + by intros _ f ?%elem_of_nil.
  - cbn [transfer_files].
    destruct (transfer_file_log operation dest_allowed root dest_subdir
                s fname) as (evs1 & rest & Hall & Hlog1 & Hrest & _).
    assert (∀ f safe : pystr,
              Print (Renaming f safe) ∈ evs1 →
              f ∈ fname :: files
              ∧ safe = sanitize_filename f dest_allowed ∧ safe ≠ f) as Hin1.
    { intros f safe Hin.
      assert (Print (Renaming f safe) ∈ evs1 ++ rest) as Hin'
        by (apply elem_of_app; by left).
      rewrite <- Hall in Hin'.
      apply renaming_in_file_events in Hin' as (-> & -> & Hne).
      split; [by left|done]. }
    destruct (transfer_file operation dest_allowed root dest_subdir s fname)
      as [[e|] s1]; cbn [fst snd and_then] in *.
    { exists evs1. split; [done|]. split; [done|]. by intros ?. }
    destruct (IH s1) as (evs2 & Hlog2 & Hin2 & Hall2).
    rewrite (Hrest eq_refl), app_nil_r in Hall.
    exists (evs1 ++ evs2). split; [by rewrite Hlog2, Hlog1, app_assoc|].
    split.
    + intros f safe [Hin|Hin]%elem_of_app; [by apply Hin1|].
      destruct (Hin2 f safe Hin) as (Hf & -> & Hne).
      split; [by right|done].
    + intros Hend f [->|Hf]%elem_of_cons Hne; apply elem_of_app.
      * left. rewrite <- Hall. by apply renaming_in_file_events.
      * right. by apply Hall2.
Qed.

Lemma transfer_source_file_events operation dest_allowed
    (root dest_subdir : path) (n total : N) (fname : pystr) size res :
  omap transfer_source
       (file_events operation dest_allowed root dest_subdir n total fname
                    size res)
  = [path_join root fname].
Proof.
  unfold file_events. rewrite omap_app.
  by destruct (decide _), operation, res.
Qed.

(** X21.  The files of a directory are handed to the transfer call once
    each at most, in the order of the listing, whether earlier ones failed
    or not: the calls made are those of the first files of the listing,
    and of all the files when the loop runs to its end. *)
Theorem files_attempted_once_in_order operation dest_allowed
    (root dest_subdir : path) (files : list pystr) s :
  let rs := transfer_files operation dest_allowed root dest_subdir files s in
  ∃ evs,
    log rs.2 = log s ++ evs
    ∧ omap transfer_source evs `prefix_of` map (path_join root) files
    ∧ (rs.1 = None →
       omap transfer_source evs = map (path_join root) files).
Proof.
  revert s. induction files as [|fname files IH]; intros s; cbn zeta.
  - exists []. split; [by rewrite app_nil_r|]. by split.
  - cbn [transfer_files].
    destruct (transfer_file_log operation dest_allowed root dest_subdir
                s fname) as (evs1 & rest & Hall & Hlog1 & Hrest & _).
    apply (f_equal (omap transfer_source)) in Hall.
    rewrite transfer_source_file_events, omap_app in Hall.
    destruct (transfer_file operation dest_allowed root dest_subdir s fname)
      as [[e|] s1]; cbn [fst snd and_then] in *.
    { exists evs1. split; [done|]. split; [|done].
      exists (omap transfer_source rest ++ map (path_join root) files).
      cbn [map]. rewrite app_assoc, <- Hall. reflexivity. }
    destruct (IH s1) as (evs2 & Hlog2 & [k Hk] & Hall2).
    rewrite (Hrest eq_refl) in Hall. cbn in Hall. rewrite app_nil_r in Hall.
    exists (evs1 ++ evs2). split; [by rewrite Hlog2, Hlog1, app_assoc|].
    rewrite omap_app, <- Hall. cbn [map]. split.
    + exists k. cbn. by rewrite Hk.
    + intros Hend. cbn. by rewrite (Hall2 Hend).
Qed.

Lemma alike_emit2 e1 e2 s1 s2 :
  forget_source_fs e1 = forget_source_fs e2 →
  alike s1 s2 → alike (emit e1 s1) (emit e2 s2).
Proof.
  intros He (Hw & Htf & Htb & Hn & Hb & Hlog). repeat split; try done.
  cbn. rewrite !map_app, Hlog. cbn. by rewrite He.
Qed.

Lemma alike_emit e s1 s2 : alike s1 s2 → alike (emit e s1) (emit e s2).
Proof. by apply alike_emit2. Qed.

Lemma alike_print m1 m2 s1 s2 :
  markup m1 = markup m2 →
  forget_source_fs (Print m1) = forget_source_fs (Print m2) →
  alike s1 s2 →
  (print m1 s1).1 = (print m2 s2).1 ∧ alike (print m1 s1).2 (print m2 s2).2.
Proof.
  intros Hm Hf Hs. unfold print. rewrite Hm.
  destruct (markup m2 ≫= console_print) as [e|]; cbn [fst snd]; [done|].
  split; [done|]. by apply alike_emit2.
Qed.

Lemma alike_scan_file (root : path) (fname : pystr) s1 s2 :
  alike s1 s2 → alike (scan_file root s1 fname) (scan_file root s2 fname).
Proof.
  intros (Hw & Htf & Htb & Hn & Hb & Hlog). rewrite !scan_file_eq.
  repeat split; cbn; rewrite ?map_app, ?Hlog, ?Hw, ?Hn, ?Htf, ?Htb, ?Hb;
    reflexivity.
Qed.

Lemma alike_scan_walk (g : walker World) s1 s2 :
  alike s1 s2 → alike (scan_walk g s1) (scan_walk g s2).
Proof.
  revert s1 s2. induction g as [|root dirs files next IH]; intros s1 s2 Hs;
    [done|].
  cbn [scan_walk].
  assert (alike (fold_left (scan_file root) files s1)
                (fold_left (scan_file root) files s2)) as Hf.
  { clear IH. revert s1 s2 Hs.
    induction files as [|fname files IHf]; intros s1 s2 Hs; [done|].
    cbn [fold_left]. by apply IHf, alike_scan_file. }
  pose proof Hf as (Hw & _). rewrite Hw. by apply IH.
Qed.

Lemma alike_transfer_file operation dest_allowed (root dest_subdir : path)
    (fname : pystr) s1 s2 :
  alike s1 s2 →
  (transfer_file operation dest_allowed root dest_subdir s1 fname).1
  = (transfer_file operation dest_allowed root dest_subdir s2 fname).1
  ∧ alike (transfer_file operation dest_allowed root dest_subdir s1 fname).2
          (transfer_file operation dest_allowed root dest_subdir s2 fname).2.
Proof.
  intros (Hw & Htf & Htb & Hn & Hb & Hlog).
  pose proof (transfer_file_cases_exact operation dest_allowed root
                dest_subdir s1 fname) as Hc1.
  pose proof (transfer_file_cases_exact operation dest_allowed root
                dest_subdir s2 fname) as Hc2.
  cbn zeta in Hc1, Hc2. rewrite <- Hw, <- Htf, <- Htb, <- Hn, <- Hb in Hc2.
  destruct Hc1 as [(e1 & Hne1 & Hr1 & ->)|[(Hres1 & Hr1 & ->)
                  |[(e1 & Hres1 & Hr1 & Hf1 & ->)
                  |(e1 & e1' & Hres1 & Hr1 & Hf1 & ->)]]],
           Hc2 as [(e2 & Hne2 & Hr2 & ->)|[(Hres2 & Hr2 & ->)
                  |[(e2 & Hres2 & Hr2 & Hf2 & ->)
                  |(e2 & e2' & Hres2 & Hr2 & Hf2 & ->)]]];
    try (specialize (Hr1 Hne2)); try (specialize (Hr2 Hne1));
    try congruence;
    try (assert (e2 = e1) as -> by congruence); try congruence;
    cbn [fst snd]; (split; [congruence|]);
    repeat split; cbn; try done; try congruence;
    by rewrite !map_app, Hlog.
Qed.

Lemma alike_transfer_files operation dest_allowed (root dest_subdir : path)
    (files : list pystr) s1 s2 :
  alike s1 s2 →
  (transfer_files operation dest_allowed root dest_subdir files s1).1
  = (transfer_files operation dest_allowed root dest_subdir files s2).1
  ∧ alike (transfer_files operation dest_allowed root dest_subdir files s1).2
          (transfer_files operation dest_allowed root dest_subdir files s2).2.
Proof.
  revert s1 s2. induction files as [|fname files IH]; intros s1 s2 Hs;
    [done|].
  cbn [transfer_files].
  destruct (alike_transfer_file operation dest_allowed root dest_subdir
              fname s1 s2 Hs) as [Ho Hf].
  destruct (transfer_file operation dest_allowed root dest_subdir s1 fname)
    as [[e1|] t1],
           (transfer_file operation dest_allowed root dest_subdir s2 fname)
    as [[e2|] t2]; cbn [fst snd and_then] in *; try done.
  by apply IH.
Qed.

Lemma alike_transfer_walk operation dest_allowed (source_root dest_root : path)
    (g : walker World) s1 s2 :
  alike s1 s2 →
  (transfer_walk operation dest_allowed source_root dest_root g s1).1
  = (transfer_walk operation dest_allowed source_root dest_root g s2).1
  ∧ alike (transfer_walk operation dest_allowed source_root dest_root g s1).2
          (transfer_walk operation dest_allowed source_root dest_root g s2).2.
Proof.
  revert s1 s2. induction g as [|root dirs files next IH]; intros s1 s2 Hs;
    [done|].
  cbn [transfer_walk].
  assert ((transfer_dir operation dest_allowed source_root dest_root
                        root files s1).1
          = (transfer_dir operation dest_allowed source_root dest_root
                          root files s2).1
          ∧ alike (transfer_dir operation dest_allowed source_root dest_root
                                root files s1).2
                  (transfer_dir operation dest_allowed source_root dest_root
                                root files s2).2) as [Ho Hdir].
  { unfold transfer_dir.
    destruct (relative_to root source_root) as [rel|]; [|done].
    pose proof Hs as (Hw & Hrest). rewrite <- Hw.
    destruct (path_mkdir (dest_root ++ rel) (world s1)) as [w [e|]];
      cbn [fst snd].
    - split; [done|]. apply alike_emit.
      destruct Hrest as (? & ? & ? & ? & ?). by repeat split.
    - apply alike_transfer_files, alike_emit.
      destruct Hrest as (? & ? & ? & ? & ?). by repeat split. }
  destruct (transfer_dir operation dest_allowed source_root dest_root
                         root files s1) as [[e1|] t1],
           (transfer_dir operation dest_allowed source_root dest_root
                         root files s2) as [[e2|] t2];
    cbn [fst snd] in *; try done.
  pose proof Hdir as (Hw & _). rewrite Hw. by apply IH.
Qed.

Lemma alike_execute (a : answers) (fs : string) operation dest_allowed s1 s2 :
  is_Some (FILESYSTEMS !! source_fs a) →
  is_Some (FILESYSTEMS !! fs) →
  alike s1 s2 →
  (execute a operation dest_allowed s1).1
  = (execute (with_source_fs fs a) operation dest_allowed s2).1
  ∧ alike (execute a operation dest_allowed s1).2
          (execute (with_source_fs fs a) operation dest_allowed s2).2.
Proof.
  intros Hfs1 Hfs2 Hs. unfold execute, discovery_pass, transfer_pass.
  cbn [with_source_fs source_fs dest_root dest_fs source_root proceed].
  assert (markup (Summary (source_root a) (source_fs a) (dest_root a)
                          (dest_fs a) operation)
          = markup (Summary (source_root a) fs (dest_root a) (dest_fs a)
                            operation)) as Hm.
  { unfold markup, profile_text.
    destruct (decide (is_Some (FILESYSTEMS !! source_fs a))); [|done].
    by destruct (decide (is_Some (FILESYSTEMS !! fs))). }
  destruct (alike_print
              (Summary (source_root a) (source_fs a) (dest_root a)
                       (dest_fs a) operation)
              (Summary (source_root a) fs (dest_root a) (dest_fs a)
                       operation) s1 s2 Hm eq_refl Hs) as [Ho1 H1].
  destruct (print (Summary (source_root a) (source_fs a) _ _ _) s1)
    as [[e1|] t1],
           (print (Summary (source_root a) fs _ _ _) s2) as [[e2|] t2];
    cbn [fst snd raising] in *; try done.
  { by split; [congruence|]. }
  clear Ho1.
  destruct (alike_print Scanning Scanning t1 t2 eq_refl eq_refl H1)
    as [Ho2 H2].
  destruct (print Scanning t1) as [[e1|] u1],
           (print Scanning t2) as [[e2|] u2];
    cbn [fst snd raising] in *; try done.
  { by split; [congruence|]. }
  clear Ho2.
  assert (world u1 = world u2) as Hw by apply H2. rewrite <- Hw.
  pose proof (alike_scan_walk (os_walk (source_root a) (world u1)) u1 u2 H2)
    as H3.
  set (v1 := scan_walk _ u1) in *. set (v2 := scan_walk _ u2) in *.
  clearbody v1 v2.
  assert (total_files v1 = total_files v2 ∧ total_bytes v1 = total_bytes v2)
    as [Hn Hb] by (split; apply H3).
  rewrite <- Hn, <- Hb.
  destruct (decide (total_files v1 = 0)) as [Hnone|Hsome].
  { destruct (alike_print (NoFilesFound (source_root a))
                (NoFilesFound (source_root a)) v1 v2 eq_refl eq_refl H3)
      as [Ho4 H4].
    destruct (print _ v1) as [[e1|] x1], (print _ v2) as [[e2|] x2];
      cbn [fst snd raising] in *; try done. by split; [congruence|]. }
  destruct (alike_print (Found (total_files v1) (total_bytes v1))
              (Found (total_files v1) (total_bytes v1)) v1 v2
              eq_refl eq_refl H3) as [Ho4 H4].
  destruct (print _ v1) as [[e1|] x1], (print _ v2) as [[e2|] x2];
    cbn [fst snd raising] in *; try done.
  { by split; [congruence|]. }
  clear Ho4.
  destruct (proceed a); cbn [negb].
  2:{ destruct (alike_print Canceled Canceled x1 x2 eq_refl eq_refl H4)
        as [Ho5 H5].
      destruct (print _ x1) as [[e1|] y1], (print _ x2) as [[e2|] y2];
        cbn [fst snd raising] in *; try done. by split; [congruence|]. }
  destruct (alike_print Transferring Transferring x1 x2 eq_refl eq_refl H4)
    as [Ho5 H5].
  destruct (print _ x1) as [[e1|] y1], (print _ x2) as [[e2|] y2];
    cbn [fst snd raising] in *; try done.
  { by split; [congruence|]. }
  clear Ho5.
  assert (world y1 = world y2) as Hwy by apply H5. rewrite <- Hwy.
  destruct (alike_transfer_walk operation dest_allowed (source_root a)
              (dest_root a) (os_walk (source_root a) (world y1)) y1 y2 H5)
    as [Ho6 H6].
  destruct (transfer_walk operation dest_allowed (source_root a) (dest_root a)
              (os_walk (source_root a) (world y1)) y1) as [[e1|] z1],
           (transfer_walk operation dest_allowed (source_root a) (dest_root a)
              (os_walk (source_root a) (world y1)) y2) as [[e2|] z2];
    cbn [fst snd raising] in *; try done.
  { by split; [congruence|]. }
  clear Ho6.
  pose proof H6 as (Hzw & Hzn & Hzb & Hzf & Hzt & Hzl).
  rewrite Hzb.
  assert (alike (emit (ProgressCompleted (total_bytes z2)) z1)
                (emit (ProgressCompleted (total_bytes z2)) z2)) as H7
    by (by apply alike_emit).
  cbn [transferred_files transferred_bytes emit]. rewrite Hzf, Hzt.
  destruct (alike_print
              (Done (transferred_files z2) (transferred_bytes z2))
              (Done (transferred_files z2) (transferred_bytes z2))
              _ _ eq_refl eq_refl H7) as [Ho8 H8].
  destruct (print _ (emit _ z1)) as [[e1|] q1],
           (print _ (emit _ z2)) as [[e2|] q2];
    cbn [fst snd raising] in *; try done. by split; [congruence|].
Qed.

(** X18.  The source profile is looked up and shown, and that is all: for
    two names of the table, the run ends the same way, on the same
    filesystem, with the same counters, and with the same log but for the
    name shown in the summary notice. *)
Theorem source_profile_is_not_used (a : answers) (w : World) (fs : string) :
  is_Some (FILESYSTEMS !! source_fs a) →
  is_Some (FILESYSTEMS !! fs) →
  (main a w).1 = (main (with_source_fs fs a) w).1
  ∧ alike (main a w).2 (main (with_source_fs fs a) w).2.
Proof.
  intros Hfs1 Hfs2. pose proof Hfs1 as [A1 H1]. pose proof Hfs2 as [A2 H2].
  unfold main. cbn [with_source_fs source_fs
    dest_root dest_fs operation source_root proceed].
  rewrite H1, H2.
  destruct (print Title (initial w)) as [[e0|] s0]; cbn [raising]; [done|].
  destruct (ensure_dest_root (dest_root a) s0) as [[o|] s1]; [done|].
  unfold after_dest_root. cbn [with_source_fs source_fs
    dest_root dest_fs operation source_root proceed].
  destruct (FILESYSTEMS !! dest_fs a) as [dest_allowed|]; [|done].
  destruct (effective_operation (operation a) (source_root a) s1)
    as [chosen [[e|] s2]]; cbn [raising]; [done|].
  by apply alike_execute.
Qed.

End Modes.

(** * Properties of the validators *)

Section ValidatorFacts.
Context {World : Type} `{OS World}.
Variable Path : pystr → path.
Variable parent : path → path.
Variable path_is_dir : path → World → bool + exn.

Lemma lstrip_nil (text : pystr) :
  lstrip text = [] ↔ Forall (λ c, isspace c = true) text.
Proof.
  induction text as [|c text IH]; [by split|]. cbn.
  destruct (isspace c) eqn:Hc.
  - rewrite IH. split; [by constructor|by inversion 1].
  - split; [done|]. inversion 1; congruence.
Qed.

Lemma lstrip_head (text : pystr) c rest :
  lstrip text = c :: rest → isspace c = false.
Proof.
  induction text as [|c' text IH]; [done|]. cbn.
  destruct (isspace c') eqn:Hc'; [done|]. by intros [= <- _].
Qed.

Lemma strip_nil (text : pystr) :
  strip text = [] ↔ Forall (λ c, isspace c = true) text.
Proof.
  unfold strip. split.
  - intros Hs. apply lstrip_nil.
    apply (f_equal reverse) in Hs. rewrite reverse_involutive in Hs.
    cbn in Hs. apply lstrip_nil in Hs. rewrite Forall_reverse in Hs.
    destruct (lstrip text) as [|c rest] eqn:Hl; [done|].
    apply lstrip_head in Hl. inversion Hs; congruence.
  - intros Hall. by rewrite (proj2 (lstrip_nil text) Hall).
Qed.

(** X19.  Each validator refuses a text as an empty path exactly when the
    text is empty or made of whitespace only, whatever the filesystem
    holds. *)
Theorem empty_path_iff_blank (document_text : pystr) (w : World) :
  ((∃ n, PathExistsValidator Path path_is_dir document_text w
         = inl (Some {| error_message := PathCannotBeEmpty;
                        cursor_position := n |}))
   ↔ Forall (λ c, isspace c = true) document_text)
  ∧ ((∃ n, PathWritableValidator Path parent document_text w
           = inl (Some {| error_message := PathCannotBeEmpty;
                          cursor_position := n |}))
     ↔ Forall (λ c, isspace c = true) document_text).
Proof.
  rewrite <- strip_nil. unfold PathExistsValidator, PathWritableValidator.
  destruct (decide (strip document_text = [])) as [Hs|Hs].
  - split; (split; [done|]); intros _; by eexists.
  - split; (split; [|done]); intros [n Hn]; repeat case_match; by cbn in Hn.
Qed.

(** X20.  A text that [PathExistsValidator] accepts as a source names a
    directory that exists; if that directory is writable,
    [PathWritableValidator] accepts the same text as a destination, and if
    it is not, refuses it as not writable, without looking at its
    parent. *)
Theorem accepted_source_as_destination (document_text : pystr) (w : World) :
  PathExistsValidator Path path_is_dir document_text w = inl None →
  let p := Path (strip document_text) in
  path_exists p w = inl true
  ∧ path_is_dir p w = inl true
  ∧ PathWritableValidator Path parent document_text w
    = inl (if os_access_W_OK p w then None
           else Some {| error_message := DirectoryIsNotWritable;
                        cursor_position := length document_text |}).
Proof.
  unfold PathExistsValidator, PathWritableValidator.
  destruct (decide (strip document_text = [])); [done|].
  destruct (path_exists _ w) as [[|]|e] eqn:Hex; [|done..].
  destruct (path_is_dir _ w) as [[|]|e] eqn:Hdir; [|done..].
  intros _. cbn. repeat split. by destruct (os_access_W_OK _ w).
Qed.

End ValidatorFacts.

(** * More runs on the in-memory filesystem *)

Section MoreRuns.
Import MemFS Scenario Cases.

Lemma transferred_files_counts_attempts_witness :
  let s := (main (ask src dst "FAT32" COPY) protected_target).2 in
  transferred_files s = count is_transfer_call (log s)
  ∧ count is_transfer_call (log s)
    = count is_progress (log s) + count is_failure (log s)
  ∧ count is_stat_call (log s) = total_files s + transferred_files s.
Proof.
  apply (transferred_files_counts_attempts (ask src dst "FAT32" COPY)
           protected_target).
  intros e. vm_compute. discriminate.
Defined.

Lemma bytes_exact_without_failure_witness :
  total_bytes (main (ask src dst "FAT32" COPY) colliding).2
  + transferred_bytes (main (ask src dst "FAT32" COPY) colliding).2
  = stat_sum (log (main (ask src dst "FAT32" COPY) colliding).2).
Proof.
  apply (bytes_exact_without_failure (ask src dst "FAT32" COPY) colliding).
  vm_compute. reflexivity.
Defined.

Lemma transfers_follow_their_mkdir_witness :
  CallMkdir (removelast (dst ++ [str "a_b.txt"])) None
  ∈ take 10 (log (main (ask src dst "FAT32" COPY) colliding).2).
Proof.
  apply (transfers_follow_their_mkdir (ask src dst "FAT32" COPY) colliding
           (take 10 (log (main (ask src dst "FAT32" COPY) colliding).2))
           (drop 11 (log (main (ask src dst "FAT32" COPY) colliding).2))
           (src ++ [str "a:b.txt"]) (dst ++ [str "a_b.txt"]) None).
  left. vm_compute. reflexivity.
Defined.


Lemma declined_run_transfers_nothing_witness :
  let a := declined (ask src dst "FAT32" COPY) in
  (main a colliding).1 ≠ Returned
  ∧ Forall (λ e, ¬ is_transfer e) (log (main a colliding).2)
  ∧ transferred_files (main a colliding).2 = 0
  ∧ transferred_bytes (main a colliding).2 = 0
  ∧ ∀ p r, CallMkdir p r ∈ log (main a colliding).2 → p = dest_root a.
Proof.
  intros a.
  apply (declined_run_transfers_nothing a colliding). reflexivity.
Defined.

Lemma copy_never_moves_witness :
  let a := ask src dst "FAT32" COPY in
  Forall (λ e, ¬ is_move e) (log (main a colliding).2)
  ∧ (is_file (src ++ [str "a:b.txt"]) (world (main a colliding).2) = true
     ∧ is_file (src ++ [str "a_b.txt"]) (world (main a colliding).2) = true).
Proof.
  intros a.
  apply (@copy_never_moves t os
           (λ fs, is_file (src ++ [str "a:b.txt"]) fs = true
                  ∧ is_file (src ++ [str "a_b.txt"]) fs = true)
           (λ p fs Hfs, conj (eq_trans (is_file_mkdir _ p fs) (proj1 Hfs))
                             (eq_trans (is_file_mkdir _ p fs) (proj2 Hfs)))
           (λ s d fs Hfs, conj (is_file_copy2 _ s d fs (proj1 Hfs))
                               (is_file_copy2 _ s d fs (proj2 Hfs)))
           a colliding).
  - reflexivity.
  - vm_compute. split; reflexivity.
Defined.

Lemma unwritable_source_is_copied_witness :
  let a := ask src dst "FAT32" MOVE in
  let s0 := emit (Print Title) (initial readonly_source) in
  Forall (λ e, ¬ is_move e) (log (main a readonly_source).2)
  ∧ (is_file (src ++ [str "report:final.txt"])
             (world (main a readonly_source).2) = true
     ∧ is_file (src ++ [str "a:b"; str "c?d"])
               (world (main a readonly_source).2) = true)
  ∧ Forall (λ e, ¬ is_transfer e) (log s0)
  ∧ match console_print (SwitchingToCopy (source_root a)) with
    | None =>
        ∃ after,
          log (main a readonly_source).2
          = log s0 ++ Print (SwitchingToCopy (source_root a)) :: after
    | Some e => main a readonly_source = (Uncaught e, s0)
    end.
Proof.
  intros a s0.
  apply (@unwritable_source_is_copied t os
           (λ fs, is_file (src ++ [str "report:final.txt"]) fs = true
                  ∧ is_file (src ++ [str "a:b"; str "c?d"]) fs = true)
           (λ p fs Hfs, conj (eq_trans (is_file_mkdir _ p fs) (proj1 Hfs))
                             (eq_trans (is_file_mkdir _ p fs) (proj2 Hfs)))
           (λ s d fs Hfs, conj (is_file_copy2 _ s d fs (proj1 Hfs))
                               (is_file_copy2 _ s d fs (proj2 Hfs)))
           a readonly_source ext4_allowed windows_allowed s0).
  - vm_compute. reflexivity.
  - vm_compute. reflexivity.
  - vm_compute. reflexivity.
  - reflexivity.
  - vm_compute. reflexivity.
  - vm_compute. split; reflexivity.
Defined.

Lemma rename_notices_are_exact_witness :
  let rs := transfer_files COPY windows_allowed src dst
              [str "a:b.txt"; str "a_b.txt"] (initial colliding) in
  ∃ evs,
    log rs.2 = log (initial colliding) ++ evs
    ∧ Print (Renaming (str "a:b.txt") (str "a_b.txt")) ∈ evs
    ∧ ∀ safe, Print (Renaming (str "a_b.txt") safe) ∉ evs.
Proof.
  intros rs.
  destruct (rename_notices_are_exact COPY windows_allowed src dst
              [str "a:b.txt"; str "a_b.txt"] (initial colliding))
    as (evs & Hlog & Honly & Hall).
  exists evs. split; [exact Hlog|]. split.
  - apply (Hall eq_refl (str "a:b.txt")).
    + apply list_elem_of_In. cbn. tauto.
    + vm_compute. discriminate.
  - intros safe Hin. destruct (Honly _ _ Hin) as (_ & -> & Hne).
    apply Hne. vm_compute. reflexivity.
Defined.

Lemma files_attempted_once_in_order_witness :
  let rs := transfer_files COPY windows_allowed src dst
              [str "f.txt"; str "g.txt"] (initial protected_target) in
  ∃ evs,
    log rs.2 = log (initial protected_target) ++ evs
    ∧ omap transfer_source evs
      = [src ++ [str "f.txt"]; src ++ [str "g.txt"]].
Proof.
  intros rs.
  destruct (files_attempted_once_in_order COPY windows_allowed src dst
              [str "f.txt"; str "g.txt"] (initial protected_target))
    as (evs & Hlog & _ & Hall).
  exists evs. split; [exact Hlog|]. apply Hall. vm_compute. reflexivity.
Defined.

Lemma source_profile_is_not_used_witness :
  let a := ask src dst "FAT32" COPY in
  (main a colliding).1 = (main (with_source_fs "NTFS" a) colliding).1
  ∧ alike (main a colliding).2 (main (with_source_fs "NTFS" a) colliding).2.
Proof.
  intros a. apply (source_profile_is_not_used a colliding "NTFS").
  - exists ext4_allowed. vm_compute. reflexivity.
  - exists windows_allowed. vm_compute. reflexivity.
Defined.

Lemma accepted_source_as_destination_witness :
  let p := split_slash [] (strip (str "  /src ")) in
  path_exists p colliding = inl true
  ∧ is_dir p colliding = true
  ∧ PathWritableValidator (split_slash []) parent (str "  /src ") colliding
    = inl (if os_access_W_OK p colliding then None
           else Some {| error_message := DirectoryIsNotWritable;
                        cursor_position := length (str "  /src ") |}).
Proof.
  destruct (accepted_source_as_destination (split_slash []) parent
              (λ p fs, inl (is_dir p fs)) (str "  /src ") colliding)
    as (Hex & Hdir & Hw).
  - vm_compute. reflexivity.
  - split; [exact Hex|]. split; [|exact Hw].
    vm_compute. reflexivity.
Defined.

End MoreRuns.
